(** * Residual blocks of [distar/ctools/torch_utils/network/res_block.py]

    A shallow embedding of the three residual blocks ([ResBlock],
    [ResFCBlock], [ResFCBlock2]) and of the way their constructors and
    forward passes compose the framework's primitives.

    - Python objects live in a store: every [nn.Module] instance has an
      address, its mutable state (weights and buffers) sits in the heap at
      that address, and a block holds references.  Passing the same
      activation object to a sub-block and keeping it in [self.act] is
      therefore visible as aliasing.
    - Constructors and forward passes are computations in a state and
      exception monad over that heap; an exception does not roll the heap
      back.
    - The tensor framework (tensors, [+], [nn.Conv2d], [nn.Linear]) and the
      normalization selector are an interface, [Torch]; a small integer
      backend implements it so that every definition can be run. *)

From Stdlib Require Import ZArith.
From stdpp Require Import base list strings.

(** ** Exceptions and results *)

Inductive exn : Type :=
| AssertionError (msg : string)   (* a failed [assert] of this repository *)
| ExternalError (msg : string)    (* raised inside a framework primitive *)
| TypeError (msg : string)        (* the interpreter's, for a call of [None] *)
| DanglingModule (a : nat).       (* a reference to no object: cannot arise
                                     from the constructors, see [wf] *)

Inductive result (A : Type) : Type :=
| Ok (a : A)
| Err (e : exn).
Arguments Ok {A} a.
Arguments Err {A} e.

(** ** Module classes and module objects *)

(** What an [nn.Module] class provides: the state a fresh instance starts
    with and its [forward], which reads the instance state and may write
    it. *)
Record mclass (T S : Type) : Type := MClass {
  init_state : S;
  fwd : S → T → result T * S
}.
Arguments MClass {T S} _ _.
Arguments init_state {T S} _.
Arguments fwd {T S} _ _ _.

(** An instance: the address of its state and its class. *)
Record module (T S : Type) : Type := Module_ {
  addr : nat;
  cls : mclass T S
}.
Arguments Module_ {T S} _ _.
Arguments addr {T S} _.
Arguments cls {T S} _.

(** ** The framework interface *)

Class Torch : Type := {
  Tensor : Type;
  MState : Type;
  (* [x.shape] *)
  shape : Tensor → list nat;
  (* [x + residual]; raises when the shapes cannot be combined *)
  tadd : Tensor → Tensor → result Tensor;
  (* [nn.Conv2d(in_channels, out_channels, kernel_size, stride, padding)] *)
  Conv2d : nat → nat → nat → nat → nat → mclass Tensor MState;
  (* [nn.Linear(in_features, out_features)] *)
  Linear : nat → nat → mclass Tensor MState;
  (* [build_normalization(norm_type)]: the class to call with a channel
     count, or an exception for a kind it does not know *)
  build_normalization : option string → result (nat → mclass Tensor MState)
}.

Abbreviation Mod := (module Tensor MState).
Abbreviation MCls := (mclass Tensor MState).

(** ** The heap monad *)

(** The store of module states, indexed by address. *)
Abbreviation heap := (list MState).

Section Heap.
Context `{T : Torch}.

(** A computation reads and writes the heap and ends in a value or in an
    exception; the heap it leaves is kept in both cases. *)
Definition M (A : Type) : Type := heap → result A * heap.

Definition ret {A} (a : A) : M A := λ h, (Ok a, h).

Definition bind {A B} (c : M A) (k : A → M B) : M B := λ h,
  match c h with
  | (Ok a, h') => k a h'
  | (Err e, h') => (Err e, h')
  end.

Definition raise {A} (e : exn) : M A := λ h, (Err e, h).

Definition lift {A} (r : result A) : M A := λ h, (r, h).

(** [Class(args)]: a fresh object at the next free address. *)
Definition new (c : MCls) : M Mod := λ h,
  (Ok (Module_ (length h) c), h ++ [init_state c]).

(** [m(x)]: run the class's forward on the object's state and store the
    state it leaves. *)
Definition call (m : Mod) (x : Tensor) : M Tensor := λ h,
  match h !! addr m with
  | None => (Err (DanglingModule (addr m)), h)
  | Some s => let '(r, s') := fwd (cls m) s x in (r, <[addr m := s']> h)
  end.

End Heap.

Declare Scope heap_scope.
Delimit Scope heap_scope with heap.
Notation "x <- c ;; k" := (bind c (λ x, k))
  (at level 100, c at next level, right associativity) : heap_scope.
Open Scope heap_scope.

(** ** The block primitives of [nn_module.py] *)

Section Primitives.
Context `{T : Torch}.

(** [nn.Sequential]: the layers in order. *)
Definition Sequential : Type := list Mod.

(** [nn.Sequential.forward]: feed each layer the output of the one before. *)
Fixpoint Sequential_forward (layers : Sequential) (x : Tensor) : M Tensor :=
  match layers with
  | [] => ret x
  | m :: ms => y <- call m x ;; Sequential_forward ms y
  end.

(** The normalization layer of a block primitive, if a kind is given. *)
Definition norm_layer (norm_type : option string) (channels : nat)
  : M Sequential :=
  match norm_type with
  | None => ret []
  | Some kind =>
      ctor <- lift (build_normalization (Some kind)) ;;
      n <- new (ctor channels) ;;
      ret [n]
  end.

(** The activation a block primitive ends with, if one is given: the
    caller's object itself, not a copy. *)
Definition act_layer (activation : option Mod) : Sequential :=
  match activation with
  | None => []
  | Some a => [a]
  end.

(** Modelled from the spec: [conv2d_block] of [nn_module.py], which is not
    among the sources.  "Applies a 2D convolution followed by an optional
    normalization and optional activation, as one callable unit." *)
Definition conv2d_block
    (in_channels out_channels kernel_size stride padding : nat)
    (activation : option Mod) (norm_type : option string) : M Sequential :=
  conv <- new (Conv2d in_channels out_channels kernel_size stride padding) ;;
  norm <- norm_layer norm_type out_channels ;;
  ret (conv :: norm ++ act_layer activation).

(** Modelled from the spec: [fc_block] of [nn_module.py], which is not among
    the sources.  "Applies a linear transform followed by an optional
    normalization and optional activation." *)
Definition fc_block (in_channels out_channels : nat)
    (activation : option Mod) (norm_type : option string) : M Sequential :=
  fc <- new (Linear in_channels out_channels) ;;
  norm <- norm_layer norm_type out_channels ;;
  ret (fc :: norm ++ act_layer activation).

End Primitives.

(** ** [class ResBlock] *)

Module ResBlock.
Section defs.
Context `{T : Torch}.

Record t : Type := Build {
  act : Mod;
  res_type : string;
  conv1 : Sequential;
  conv2 : Sequential
}.

(** [ResBlock.__init__(self, in_channels, activation=nn.ReLU(),
    norm_type='BN', res_type='basic')], lines 29-48.  The activation is an
    [nn.Module] the caller built, as the docstring types it (for [None]
    see [NoActivation]); the default is one object shared by every call that
    leaves it out.  The [assert] is executed (the interpreter does not run
    with [-O]). *)
Definition __init__ (in_channels : nat) (activation : Mod)
    (norm_type : option string) (res_type : string) : M t :=
  let act := activation in
  if bool_decide (res_type ∈ ["basic"; "bottleneck"]%string) then
    conv1 <- conv2d_block in_channels in_channels 3 1 1 (Some act) norm_type ;;
    conv2 <- conv2d_block in_channels in_channels 3 1 1 None norm_type ;;
    ret (Build act res_type conv1 conv2)
  else
    raise (AssertionError
      ("residual type only support basic and bottleneck, not:" +:+ res_type)).

(** [ResBlock.forward(self, x)], lines 50-65. *)
Definition forward (self : t) (x : Tensor) : M Tensor :=
  let residual := x in
  x <- Sequential_forward (conv1 self) x ;;
  x <- Sequential_forward (conv2 self) x ;;
  s <- lift (tadd x residual) ;;
  x <- call (act self) s ;;
  ret x.

(** The objects a block refers to. *)
Definition modules (self : t) : list Mod :=
  act self :: conv1 self ++ conv2 self.

(** The same block under another tag. *)
Definition with_res_type (tag : string) (self : t) : t :=
  Build (act self) tag (conv1 self) (conv2 self).

End defs.
End ResBlock.

(** ** [class ResFCBlock] *)

Module ResFCBlock.
Section defs.
Context `{T : Torch}.

Record t : Type := Build {
  act : Mod;
  fc1 : Sequential;
  fc2 : Sequential
}.

(** [ResFCBlock.__init__(self, in_channels, activation=nn.ReLU(),
    norm_type='BN')], lines 79-91. *)
Definition __init__ (in_channels : nat) (activation : Mod)
    (norm_type : option string) : M t :=
  let act := activation in
  fc1 <- fc_block in_channels in_channels (Some act) norm_type ;;
  fc2 <- fc_block in_channels in_channels None norm_type ;;
  ret (Build act fc1 fc2).

(** [ResFCBlock.forward(self, x)], lines 93-108. *)
Definition forward (self : t) (x : Tensor) : M Tensor :=
  let residual := x in
  x <- Sequential_forward (fc1 self) x ;;
  x <- Sequential_forward (fc2 self) x ;;
  s <- lift (tadd x residual) ;;
  x <- call (act self) s ;;
  ret x.

Definition modules (self : t) : list Mod :=
  act self :: fc1 self ++ fc2 self.

End defs.
End ResFCBlock.

(** ** [class ResFCBlock2] *)

Module ResFCBlock2.
Section defs.
Context `{T : Torch}.

Record t : Type := Build {
  act : Mod;
  fc1 : Sequential;
  fc2 : Sequential;
  norm : Mod
}.

(** [ResFCBlock2.__init__(self, in_channels, activation=nn.ReLU(),
    norm_type='LN')], lines 111-124.  [norm_type] goes to the selector as it
    is, [None] included. *)
Definition __init__ (in_channels : nat) (activation : Mod)
    (norm_type : option string) : M t :=
  let act := activation in
  fc1 <- fc_block in_channels in_channels (Some act) None ;;
  fc2 <- fc_block in_channels in_channels None None ;;
  ctor <- lift (build_normalization norm_type) ;;
  norm <- new (ctor in_channels) ;;
  ret (Build act fc1 fc2 norm).

(** [ResFCBlock2.forward(self, x)], lines 126-141. *)
Definition forward (self : t) (x : Tensor) : M Tensor :=
  let residual := x in
  x <- Sequential_forward (fc1 self) x ;;
  x <- Sequential_forward (fc2 self) x ;;
  s <- lift (tadd x residual) ;;
  x <- call (norm self) s ;;
  ret x.

Definition modules (self : t) : list Mod :=
  act self :: norm self :: fc1 self ++ fc2 self.

End defs.
End ResFCBlock2.

(** ** The three classes built with [activation=None]

    The constructors take what they are given: with [None], [self.act] is
    [None] and [activation=self.act] hands [None] on to the first
    primitive, which then ends without an activation.  A block is here the
    tuple of what is left of its fields. *)

Module NoActivation.
Section defs.
Context `{T : Torch}.

(** [ResBlock(in_channels, None, norm_type, res_type)], lines 41-48. *)
Definition ResBlock_init (in_channels : nat) (norm_type : option string)
    (res_type : string) : M (Sequential * Sequential) :=
  if bool_decide (res_type ∈ ["basic"; "bottleneck"]%string) then
    conv1 <- conv2d_block in_channels in_channels 3 1 1 None norm_type ;;
    conv2 <- conv2d_block in_channels in_channels 3 1 1 None norm_type ;;
    ret (conv1, conv2)
  else
    raise (AssertionError
      ("residual type only support basic and bottleneck, not:" +:+ res_type)).

(** [ResBlock.forward], lines 61-65, when [self.act] is [None]: the sum is
    computed, then the call of [None] raises. *)
Definition ResBlock_forward (self : Sequential * Sequential) (x : Tensor)
  : M Tensor :=
  let residual := x in
  x <- Sequential_forward self.1 x ;;
  x <- Sequential_forward self.2 x ;;
  s <- lift (tadd x residual) ;;
  raise (TypeError "'NoneType' object is not callable").

(** [ResFCBlock(in_channels, None, norm_type)], lines 88-91. *)
Definition ResFCBlock_init (in_channels : nat) (norm_type : option string)
  : M (Sequential * Sequential) :=
  fc1 <- fc_block in_channels in_channels None norm_type ;;
  fc2 <- fc_block in_channels in_channels None norm_type ;;
  ret (fc1, fc2).

(** [ResFCBlock.forward], lines 104-108, when [self.act] is [None]. *)
Definition ResFCBlock_forward (self : Sequential * Sequential) (x : Tensor)
  : M Tensor :=
  let residual := x in
  x <- Sequential_forward self.1 x ;;
  x <- Sequential_forward self.2 x ;;
  s <- lift (tadd x residual) ;;
  raise (TypeError "'NoneType' object is not callable").

(** [ResFCBlock2(in_channels, None, norm_type)], lines 120-124. *)
Definition ResFCBlock2_init (in_channels : nat) (norm_type : option string)
  : M (Sequential * Sequential * Mod) :=
  fc1 <- fc_block in_channels in_channels None None ;;
  fc2 <- fc_block in_channels in_channels None None ;;
  ctor <- lift (build_normalization norm_type) ;;
  norm <- new (ctor in_channels) ;;
  ret (fc1, fc2, norm).

(** [ResFCBlock2.forward], lines 137-141: [self.act] is not used. *)
Definition ResFCBlock2_forward (self : Sequential * Sequential * Mod)
    (x : Tensor) : M Tensor :=
  let residual := x in
  x <- Sequential_forward self.1.1 x ;;
  x <- Sequential_forward self.1.2 x ;;
  s <- lift (tadd x residual) ;;
  x <- call self.2 s ;;
  ret x.

End defs.
End NoActivation.

(** ** Properties of modules, blocks and heaps *)

Section Properties.
Context `{T : Torch}.

(** Every reference points into the heap. *)
Definition wf (ms : list Mod) (h : heap) : Prop :=
  Forall (λ m, addr m < length h) ms.

(** Two heaps hold the same state for each of the given objects. *)
Definition agree (ms : list Mod) (h1 h2 : heap) : Prop :=
  Forall (λ m, h1 !! addr m = h2 !! addr m) ms.


(** A call never changes the state of the object. *)
Definition stateless (m : Mod) : Prop :=
  ∀ s x, (fwd (cls m) s x).2 = s.

(** An identity operator ([nn.Identity]): the input comes back, the state
    stays. *)
Definition identity_op (m : Mod) : Prop :=
  ∀ s x, fwd (cls m) s x = (Ok x, s).

(** On tensors of shape [sh] the class returns, and returns that shape. *)
Definition keeps_shape (c : MCls) (sh : list nat) : Prop :=
  ∀ s x, shape x = sh → ∃ y s', fwd c s x = (Ok y, s') ∧ shape y = sh.

(** The normalization layers a primitive builds for a kind: none for
    [None], one instance of the selected class otherwise. *)
Definition normalization_of (norm_type : option string) (channels : nat)
    (n : Sequential) : Prop :=
  match norm_type with
  | None => n = []
  | Some kind => ∃ ctor m, build_normalization (Some kind) = Ok ctor ∧
                           n = [m] ∧ cls m = ctor channels
  end.

(** The three forward passes have one shape: two sequences, the addition
    of the saved input, one last operator. *)
Definition residual_forward (s1 s2 : Sequential) (last : Mod) (x : Tensor)
  : M Tensor :=
  let residual := x in
  x <- Sequential_forward s1 x ;;
  x <- Sequential_forward s2 x ;;
  s <- lift (tadd x residual) ;;
  x <- call last s ;;
  ret x.

(** Both block primitives build the same way: the layer, then the
    normalization, then the caller's activation. *)
Definition primitive (c : MCls) (channels : nat) (activation : option Mod)
    (norm_type : option string) : M Sequential :=
  l <- new c ;;
  norm <- norm_layer norm_type channels ;;
  ret (l :: norm ++ act_layer activation).



(** The outcome of a computation and the states it leaves in the given
    objects are determined by the states of these objects. *)
Definition determined {A} (ms : list Mod) (c : M A) : Prop :=
  ∀ h1 h2, agree ms h1 h2 →
    (c h1).1 = (c h2).1 ∧ agree ms (c h1).2 (c h2).2.

(** The spatial size a convolution leaves (no dilation). *)
Definition conv_out (n kernel_size stride padding : nat) : nat :=
  (n + 2 * padding - kernel_size) / stride + 1.

End Properties.

(** What the shape theorems take from the framework: [+] on equal
    shapes, the output size of a convolution, the output size of a linear
    layer. *)
Class TorchShapes `{T : Torch} : Prop := {
  tadd_shape : ∀ a b, shape a = shape b →
    ∃ c, tadd a b = Ok c ∧ shape c = shape a;
  Conv2d_shape : ∀ cin cout k st p B H W,
    0 < B → 0 < cin → 0 < cout → 0 < H → 0 < W → 0 < k → 0 < st →
    k ≤ H + 2 * p → k ≤ W + 2 * p →
    ∀ s x, shape x = [B; cin; H; W] →
      ∃ y s', fwd (Conv2d cin cout k st p) s x = (Ok y, s') ∧
              shape y = [B; cout; conv_out H k st p; conv_out W k st p];
  Linear_shape : ∀ cin cout B, 0 < B → 0 < cin → 0 < cout →
    ∀ s x, shape x = [B; cin] →
      ∃ y s', fwd (Linear cin cout) s x = (Ok y, s') ∧ shape y = [B; cout]
}.

(** ** An integer backend

    Tensors with integer entries in row-major order, real convolution and
    matrix product, and normalization layers in the training mode a fresh
    module is in: batch normalization rejects one value per channel and
    keeps its count of tracked batches, and the three normalizations centre
    their groups; the division by the standard deviation is left out (see
    [center]).  Weights start at one and biases at zero. *)

Module IntTorch.

Record tensor : Type := Tensor_ { tshape : list nat; tdata : list Z }.

Record mstate : Type := MState_ {
  weight : list Z;
  bias : list Z;
  num_batches_tracked : nat
}.

Definition at_ (l : list Z) (i : nat) : Z := default 0%Z (l !! i).

Definition sumZ (l : list Z) : Z := foldr Z.add 0%Z l.

Definition add (a b : tensor) : result tensor :=
  if decide (tshape a = tshape b)
  then Ok (Tensor_ (tshape a) (zip_with Z.add (tdata a) (tdata b)))
  else Err (ExternalError "The size of tensor a must match the size of tensor b").

Definition conv2d_forward (cin cout k st p : nat) (s : mstate) (x : tensor)
  : result tensor * mstate :=
  match tshape x with
  | [B; C; H; W] =>
      if decide (C = cin ∧ 0 < st ∧ k ≤ H + 2 * p ∧ k ≤ W + 2 * p) then
        let Ho := conv_out H k st p in
        let Wo := conv_out W k st p in
        let px b c u v :=
          if decide (p ≤ u < H + p ∧ p ≤ v < W + p)
          then at_ (tdata x) (((b * cin + c) * H + (u - p)) * W + (v - p))
          else 0%Z in
        let out b co i j :=
          Z.add (at_ (bias s) co)
            (sumZ (ci ← seq 0 cin; di ← seq 0 k; dj ← seq 0 k;
                   [Z.mul (at_ (weight s) (((co * cin + ci) * k + di) * k + dj))
                          (px b ci (i * st + di) (j * st + dj))])) in
        (Ok (Tensor_ [B; cout; Ho; Wo]
               (b ← seq 0 B; co ← seq 0 cout; i ← seq 0 Ho; j ← seq 0 Wo;
                [out b co i j])), s)
      else (Err (ExternalError "Calculated padded input size is too small"), s)
  | _ => (Err (ExternalError "Expected 4D input to conv2d"), s)
  end.

Definition conv2d (cin cout k st p : nat) : mclass tensor mstate :=
  MClass (MState_ (replicate (cout * cin * k * k) 1%Z) (replicate cout 0%Z) 0)
         (conv2d_forward cin cout k st p).

Definition linear_forward (cin cout : nat) (s : mstate) (x : tensor)
  : result tensor * mstate :=
  match tshape x with
  | [B; C] =>
      if decide (C = cin) then
        let out b o :=
          Z.add (at_ (bias s) o)
            (sumZ (i ← seq 0 cin;
                   [Z.mul (at_ (weight s) (o * cin + i))
                          (at_ (tdata x) (b * cin + i))])) in
        (Ok (Tensor_ [B; cout] (b ← seq 0 B; o ← seq 0 cout; [out b o])), s)
      else (Err (ExternalError "mat1 and mat2 shapes cannot be multiplied"), s)
  | _ => (Err (ExternalError "Expected 2D input to linear"), s)
  end.

Definition linear (cin cout : nat) : mclass tensor mstate :=
  MClass (MState_ (replicate (cout * cin) 1%Z) (replicate cout 0%Z) 0)
         (linear_forward cin cout).

Definition affine_state (channels : nat) : mstate :=
  MState_ (replicate channels 1%Z) (replicate channels 0%Z) 0.

(** The number of entries of a shape. *)
Definition numel (sh : list nat) : nat := foldr Nat.mul 1 sh.

(** The data path of the three normalizations: every entry loses the mean
    of its group and goes through the affine parameters of its channel.
    The division by the standard deviation of the group needs real
    arithmetic and is left out, so the result is the framework's where a
    group is constant (there it is the bias) and a stand-in elsewhere. *)
Definition center (group chan : nat → nat) (s : mstate) (d : list Z)
  : list Z :=
  let members g :=
    concat (imap (λ j w, if decide (group j = g) then [w] else []) d) in
  let mean g := Z.div (sumZ (members g)) (Z.of_nat (length (members g))) in
  imap (λ i v, Z.add (Z.mul (Z.sub v (mean (group i))) (at_ (weight s) (chan i)))
                     (at_ (bias s) (chan i))) d.

(** Batch normalization over the channel axis, in the training mode a
    fresh module is in: it wants more than one value per channel, it
    normalizes each channel over the batch, and it tracks the batch. *)
Definition batch_norm (channels : nat) : mclass tensor mstate :=
  MClass (affine_state channels) (λ s x,
    match tshape x with
    | B :: C :: rest =>
        if decide (C = channels) then
          if decide (B * numel rest ≤ 1) then
            (Err (ExternalError
               "Expected more than 1 value per channel when training"), s)
          else
            let chan i := (i / numel rest) mod C in
            (Ok (Tensor_ (tshape x) (center chan chan s (tdata x))),
             MState_ (weight s) (bias s) (S (num_batches_tracked s)))
        else (Err (ExternalError "running_mean should contain C elements"), s)
    | _ => (Err (ExternalError "expected at least 2D input"), s)
    end).

(** Instance normalization: each channel of each sample over its spatial
    entries, of which it wants more than one; tracks nothing. *)
Definition instance_norm (channels : nat) : mclass tensor mstate :=
  MClass (affine_state channels) (λ s x,
    match tshape x with
    | _ :: C :: rest =>
        if decide (C = channels) then
          if decide (numel rest ≤ 1) then
            (Err (ExternalError
               "Expected more than 1 spatial element when training"), s)
          else
            (Ok (Tensor_ (tshape x)
                   (center (λ i, i / numel rest)
                           (λ i, (i / numel rest) mod C) s (tdata x))), s)
        else (Err (ExternalError "expected input with C channels"), s)
    | _ => (Err (ExternalError "expected at least 2D input"), s)
    end).

(** Layer normalization over the last axis: tracks nothing. *)
Definition layer_norm (channels : nat) : mclass tensor mstate :=
  MClass (affine_state channels) (λ s x,
    if decide (last (tshape x) = Some channels) then
      (Ok (Tensor_ (tshape x)
             (center (λ i, i / channels) (λ i, i mod channels) s (tdata x))),
       s)
    else (Err (ExternalError "input does not match normalized_shape"), s)).

Definition select_norm (norm_type : option string)
  : result (nat → mclass tensor mstate) :=
  match norm_type with
  | Some kind =>
      if decide (kind = "BN"%string) then Ok batch_norm
      else if decide (kind = "IN"%string) then Ok instance_norm
      else if decide (kind = "LN"%string) then Ok layer_norm
      else Err (ExternalError ("invalid norm type: " +:+ kind))
  | None => Err (ExternalError "invalid norm type: None")
  end.

Definition no_state : mstate := MState_ [] [] 0.

(** [nn.ReLU] and [nn.Identity]. *)
Definition relu : mclass tensor mstate :=
  MClass no_state (λ s x, (Ok (Tensor_ (tshape x) (Z.max 0 <$> tdata x)), s)).

Definition identity : mclass tensor mstate :=
  MClass no_state (λ s x, (Ok x, s)).

(** [nn.RReLU] in the training mode a fresh module is in: a negative entry
    is scaled by a slope drawn from [1/8, 1/3].  The generator is a counter
    of draws kept in the object's own cell, where buffers are, and never in
    a weight; the slope of a call is [1/d] with [d = 3 + draws mod 6], and
    the product is rounded toward zero. *)
Definition rrelu : mclass tensor mstate :=
  MClass no_state (λ s x,
    let d := Z.of_nat (3 + num_batches_tracked s mod 6) in
    (Ok (Tensor_ (tshape x)
           ((λ v, if decide (0 ≤ v)%Z then v else Z.quot v d) <$> tdata x)),
     MState_ (weight s) (bias s) (S (num_batches_tracked s)))).

(** The parameters of an object: what training updates. *)
Definition parameters (s : mstate) : list Z * list Z := (weight s, bias s).

Definition torch : Torch := {|
  Tensor := tensor;
  MState := mstate;
  shape := tshape;
  tadd := add;
  Conv2d := conv2d;
  Linear := linear;
  build_normalization := select_norm
|}.

End IntTorch.

(** ** Example objects on the integer backend *)

Section Examples.
Local Existing Instance IntTorch.torch.

(** A heap holding one [nn.ReLU()] and one [nn.Identity()], the way a
    caller has them before building a block. *)
Definition h0 : heap := [IntTorch.no_state; IntTorch.no_state].
Definition relu0 : Mod := Module_ 0 IntTorch.relu.
Definition id0 : Mod := Module_ 1 IntTorch.identity.

(** A batch of one image with one channel, and a batch of one vector. *)
Definition img0 : Tensor := IntTorch.Tensor_ [1; 1; 2; 2] [1; -2; 3; 4]%Z.
Definition vec0 : Tensor := IntTorch.Tensor_ [1; 2] [1; -5]%Z.

End Examples.

(** ** More properties of computations and blocks *)

Section MoreProperties.
Context `{T : Torch}.

(** A computation only appends to the heap: the objects that were there
    keep their address and their state. *)
Definition appends {A} (c : M A) : Prop := ∀ h, h `prefix_of` (c h).2.

(** The objects sit at consecutive addresses from [k] on. *)
Definition consecutive (k : nat) (ms : list Mod) : Prop :=
  addr <$> ms = seq k (length ms).

(** A computation leaves the state at address [i] as it is. *)
Definition keeps_at {A} (i : nat) (c : M A) : Prop :=
  ∀ h, (c h).2 !! i = h !! i.

(** An object that sits at address [i] does not change its state when it
    is called. *)
Definition quiet_at (i : nat) (m : Mod) : Prop := addr m = i → stateless m.

(** Where the exception of a forward pass was raised: in a call of one of
    the objects, or in the addition of the saved input [x0]. *)
Definition raised_inside (ms : list Mod) (x0 : Tensor) (e : exn) : Prop :=
  (∃ m s y, m ∈ ms ∧ (fwd (cls m) s y).1 = Err e) ∨
  (∃ y, tadd y x0 = Err e).

(** On heaps that hold the objects, a computation allocates nothing and
    raises only what was raised inside. *)
Definition raises_inside {A} (ms : list Mod) (x0 : Tensor) (c : M A) : Prop :=
  ∀ h, wf ms h →
    length (c h).2 = length h ∧
    ∀ e, (c h).1 = Err e → raised_inside ms x0 e.

(** Two heaps hold the same parameters, as [par] reads them off a state,
    for each of the given objects. *)
Definition same_params {P} (par : MState → P) (ms : list Mod)
    (h1 h2 : heap) : Prop :=
  Forall (λ m, par <$> h1 !! addr m = par <$> h2 !! addr m) ms.

(** What a call of the object returns, and the parameters it leaves,
    depend on its state through the parameters only. *)
Definition reads_params {P} (par : MState → P) (m : Mod) : Prop :=
  ∀ s1 s2 x, par s1 = par s2 →
    (fwd (cls m) s1 x).1 = (fwd (cls m) s2 x).1 ∧
    par (fwd (cls m) s1 x).2 = par (fwd (cls m) s2 x).2.

(** A call of the object leaves its parameters as they are. *)
Definition keeps_params {P} (par : MState → P) (m : Mod) : Prop :=
  ∀ s x, par (fwd (cls m) s x).2 = par s.

(** The outcome of a computation and the parameters it leaves in the given
    objects are determined by the parameters of these objects. *)
Definition param_determined {A P} (par : MState → P) (ms : list Mod)
    (c : M A) : Prop :=
  ∀ h1 h2, same_params par ms h1 h2 →
    (c h1).1 = (c h2).1 ∧ same_params par ms (c h1).2 (c h2).2.

(** A computation leaves the parameters of the given objects as they are. *)
Definition param_preserving {A P} (par : MState → P) (ms : list Mod)
    (c : M A) : Prop :=
  ∀ h, same_params par ms (c h).2 h.

End MoreProperties.

(** ** More example objects *)

Section MoreExamples.
Local Existing Instance IntTorch.torch.

(** A heap holding one [nn.RReLU()]. *)
Definition hr : heap := [IntTorch.no_state].
Definition rrelu0 : Mod := Module_ 0 IntTorch.rrelu.

(** A batch of one image with negative entries, a batch of one image with
    one pixel, and a batch of one constant vector. *)
Definition img_neg : Tensor := IntTorch.Tensor_ [1; 1; 2; 2] [-3; -3; -3; -3]%Z.
Definition pixel : Tensor := IntTorch.Tensor_ [1; 1; 1; 1] [5]%Z.

End MoreExamples.

(** * Theorems *)

(** ** The monad and the heap *)

Section HeapFacts.
Context `{T : Torch}.

Lemma bind_ok {A B} (c : M A) (k : A → M B) h a h' :
  c h = (Ok a, h') → bind c k h = k a h'.
Proof. intros E. unfold bind. by rewrite E. Qed.

Lemma bind_err {A B} (c : M A) (k : A → M B) h e h' :
  c h = (Err e, h') → bind c k h = (Err e, h').
Proof. intros E. unfold bind. by rewrite E. Qed.

Lemma bind_inv {A B} (c : M A) (k : A → M B) h b h2 :
  bind c k h = (Ok b, h2) → ∃ a h1, c h = (Ok a, h1) ∧ k a h1 = (Ok b, h2).
Proof.
  unfold bind. destruct (c h) as [[a|e] h1]; [eauto | discriminate].
Qed.

Lemma bind_ret_r {A} (c : M A) h : bind c ret h = c h.
Proof. unfold bind, ret. by destruct (c h) as [[a|e] h1]. Qed.

Lemma bind_assoc {A B C} (c : M A) (k : A → M B) (k' : B → M C) h :
  bind (bind c k) k' h = bind c (λ a, bind (k a) k') h.
Proof. unfold bind. by destruct (c h) as [[a|e] h1]. Qed.

Lemma bind_ext {A B} (c : M A) (k k' : A → M B) h :
  (∀ a h1, k a h1 = k' a h1) → bind c k h = bind c k' h.
Proof. intros E. unfold bind. destruct (c h) as [[a|e] h1]; [apply E | done]. Qed.

Lemma call_length m x h : length (call m x h).2 = length h.
Proof.
  unfold call. destruct (h !! addr m) as [s|]; [|done].
  destruct (fwd (cls m) s x) as [r s']. simpl. apply length_insert.
Qed.

Lemma call_other m x h a : addr m ≠ a → (call m x h).2 !! a = h !! a.
Proof.
  intros Hne. unfold call. destruct (h !! addr m) as [s|]; [|done].
  destruct (fwd (cls m) s x) as [r s']. simpl.
  by apply list_lookup_insert_ne.
Qed.

Lemma call_stateless m x h : stateless m → (call m x h).2 = h.
Proof.
  intros Hm. unfold call. destruct (h !! addr m) as [s|] eqn:E; [|done].
  specialize (Hm s x). destruct (fwd (cls m) s x) as [r s']. simpl in *.
  subst s'. by apply list_insert_id.
Qed.

Lemma call_identity m x h :
  identity_op m → addr m < length h → call m x h = (Ok x, h).
Proof.
  intros Hm Hlt. unfold call.
  destruct (h !! addr m) as [s|] eqn:E.
  - unfold identity_op in Hm. rewrite Hm. by rewrite list_insert_id.
  - apply lookup_ge_None in E. lia.
Qed.

Lemma call_shape m x h sh :
  keeps_shape (cls m) sh → addr m < length h → shape x = sh →
  ∃ y h', call m x h = (Ok y, h') ∧ shape y = sh ∧ length h' = length h.
Proof.
  intros Hm Hlt Hx. unfold call, keeps_shape in *.
  destruct (h !! addr m) as [s|] eqn:E.
  - destruct (Hm s x Hx) as (y & s' & Ey & Hy). rewrite Ey.
    eexists _, _. split; [done|]. split; [done|]. apply length_insert.
  - apply lookup_ge_None in E. lia.
Qed.

(** Equal states in, equal result and equal states out. *)
Lemma call_agree ms m x h1 h2 :
  m ∈ ms → agree ms h1 h2 →
  (call m x h1).1 = (call m x h2).1 ∧ agree ms (call m x h1).2 (call m x h2).2.
Proof.
  intros Hin Hag.
  assert (Em : h1 !! addr m = h2 !! addr m).
  { unfold agree in Hag. rewrite Forall_forall in Hag. by apply Hag. }
  unfold call. destruct (h1 !! addr m) as [s|] eqn:E1; rewrite <- Em; [|done].
  destruct (fwd (cls m) s x) as [r s']. simpl. split; [done|].
  symmetry in Em. apply lookup_lt_Some in E1, Em.
  unfold agree in *. rewrite Forall_forall in *. intros m' Hm'.
  destruct (decide (addr m = addr m')) as [Ea|Ea].
  - rewrite <- Ea. by rewrite !list_lookup_insert_eq.
  - rewrite !list_lookup_insert_ne by done. by apply Hag.
Qed.

End HeapFacts.

(** ** Computations: frame, preservation, determinacy *)

Section Effects.
Context `{T : Torch}.











Lemma determined_ret {A} ms (a : A) : determined ms (ret a).
Proof. by intros h1 h2 Hag. Qed.

Lemma determined_lift {A} ms (r : result A) : determined ms (lift r).
Proof. by intros h1 h2 Hag. Qed.

Lemma determined_bind {A B} ms (c : M A) (k : A → M B) :
  determined ms c → (∀ a, determined ms (k a)) → determined ms (bind c k).
Proof.
  intros Hc Hk h1 h2 Hag. unfold bind. destruct (Hc h1 h2 Hag) as [Hr Hh].
  destruct (c h1) as [[a1|e1] h1'], (c h2) as [[a2|e2] h2']; simpl in *;
    try discriminate.
  - injection Hr as ->. by apply Hk.
  - injection Hr as ->. by split.
Qed.

Lemma determined_call ms m x : m ∈ ms → determined ms (call m x).
Proof. intros Hin h1 h2 Hag. by apply call_agree. Qed.

Lemma determined_Sequential ms layers x :
  layers ⊆ ms → determined ms (Sequential_forward layers x).
Proof.
  revert x. induction layers as [|m layers IH]; intros x Hsub; simpl.
  - apply determined_ret.
  - apply determined_bind.
    + apply determined_call, Hsub. by left.
    + intros y. apply IH. intros m' Hm'. apply Hsub. by right.
Qed.

(** The shared shape of the three forward passes. *)



Lemma determined_residual ms s1 s2 last x :
  s1 ⊆ ms → s2 ⊆ ms → last ∈ ms →
  determined ms (residual_forward s1 s2 last x).
Proof.
  intros H1 H2 Hl. unfold residual_forward.
  apply determined_bind; [by apply determined_Sequential|]. intros x1.
  apply determined_bind; [by apply determined_Sequential|]. intros x2.
  apply determined_bind; [apply determined_lift|]. intros s.
  apply determined_bind; [by apply determined_call|]. intros y.
  apply determined_ret.
Qed.

Lemma keeps_at_ret {A} i (a : A) : keeps_at i (ret a).
Proof. by intros h. Qed.

Lemma keeps_at_lift {A} i (r : result A) : keeps_at i (lift r).
Proof. by intros h. Qed.

Lemma keeps_at_bind {A B} i (c : M A) (k : A → M B) :
  keeps_at i c → (∀ a, keeps_at i (k a)) → keeps_at i (bind c k).
Proof.
  intros Hc Hk h. unfold bind. specialize (Hc h).
  destruct (c h) as [[a|e] h1]; simpl in *; [|done].
  by rewrite Hk.
Qed.

Lemma keeps_at_call i m x : quiet_at i m → keeps_at i (call m x).
Proof.
  intros Hq h. destruct (decide (addr m = i)) as [Hi|Hi].
  - by rewrite call_stateless by auto.
  - by apply call_other.
Qed.

Lemma keeps_at_Sequential i layers x :
  Forall (quiet_at i) layers → keeps_at i (Sequential_forward layers x).
Proof.
  revert x. induction layers as [|m layers IH]; intros x Hq; simpl.
  - apply keeps_at_ret.
  - inversion Hq; subst. apply keeps_at_bind.
    + by apply keeps_at_call.
    + intros y. by apply IH.
Qed.

Lemma keeps_at_residual i s1 s2 last x :
  Forall (quiet_at i) (last :: s1 ++ s2) →
  keeps_at i (residual_forward s1 s2 last x).
Proof.
  intros Hq. inversion Hq as [|? ? Hl Hq']; subst.
  apply Forall_app in Hq' as [H1 H2]. unfold residual_forward.
  apply keeps_at_bind; [by apply keeps_at_Sequential|]. intros x1.
  apply keeps_at_bind; [by apply keeps_at_Sequential|]. intros x2.
  apply keeps_at_bind; [apply keeps_at_lift|]. intros s.
  apply keeps_at_bind; [by apply keeps_at_call|]. intros y.
  apply keeps_at_ret.
Qed.

(** Parameters: what a computation returns when only they are known. *)

Lemma same_params_lookup {P} (par : MState → P) ms h1 h2 m :
  m ∈ ms → same_params par ms h1 h2 →
  par <$> h1 !! addr m = par <$> h2 !! addr m.
Proof.
  intros Hm Hs. unfold same_params in Hs. rewrite Forall_forall in Hs.
  by apply Hs.
Qed.

Lemma param_determined_ret {A P} (par : MState → P) ms (a : A) :
  param_determined par ms (ret a).
Proof. by intros h1 h2 Hs. Qed.

Lemma param_determined_lift {A P} (par : MState → P) ms (r : result A) :
  param_determined par ms (lift r).
Proof. by intros h1 h2 Hs. Qed.

Lemma param_determined_bind {A B P} (par : MState → P) ms
    (c : M A) (k : A → M B) :
  param_determined par ms c → (∀ a, param_determined par ms (k a)) →
  param_determined par ms (bind c k).
Proof.
  intros Hc Hk h1 h2 Hs. unfold bind. destruct (Hc h1 h2 Hs) as [Hr Hh].
  destruct (c h1) as [[a1|e1] h1'], (c h2) as [[a2|e2] h2']; simpl in *;
    try discriminate.
  - injection Hr as ->. by apply Hk.
  - injection Hr as ->. by split.
Qed.

Lemma param_determined_call {P} (par : MState → P) ms m x :
  m ∈ ms → reads_params par m → param_determined par ms (call m x).
Proof.
  intros Hm Hr h1 h2 Hs.
  pose proof (same_params_lookup par ms h1 h2 m Hm Hs) as Em.
  unfold call.
  destruct (h1 !! addr m) as [s1|] eqn:E1, (h2 !! addr m) as [s2|] eqn:E2;
    simpl in Em; try discriminate; [|done].
  injection Em as Em. destruct (Hr s1 s2 x Em) as [Hres Hpar].
  destruct (fwd (cls m) s1 x) as [r1 s1'], (fwd (cls m) s2 x) as [r2 s2'].
  simpl in *. split; [done|].
  apply lookup_lt_Some in E1, E2.
  unfold same_params in *. rewrite Forall_forall in *. intros m' Hm'.
  destruct (decide (addr m = addr m')) as [Ea|Ea].
  - rewrite <- Ea, !list_lookup_insert_eq by done. simpl. by rewrite Hpar.
  - rewrite !list_lookup_insert_ne by done. by apply Hs.
Qed.

Lemma param_determined_Sequential {P} (par : MState → P) ms layers x :
  layers ⊆ ms → Forall (reads_params par) ms →
  param_determined par ms (Sequential_forward layers x).
Proof.
  intros Hsub Hr. revert x.
  induction layers as [|m layers IH]; intros x; simpl.
  - apply param_determined_ret.
  - assert (Hm : m ∈ ms) by (apply Hsub; by left).
    apply param_determined_bind.
    + apply param_determined_call; [done|].
      rewrite Forall_forall in Hr. by apply Hr.
    + intros y. apply IH. intros m' Hm'. apply Hsub. by right.
Qed.

Lemma param_determined_residual {P} (par : MState → P) ms s1 s2 last x :
  s1 ⊆ ms → s2 ⊆ ms → last ∈ ms → Forall (reads_params par) ms →
  param_determined par ms (residual_forward s1 s2 last x).
Proof.
  intros H1 H2 Hl Hr. unfold residual_forward.
  apply param_determined_bind; [by apply param_determined_Sequential|].
  intros x1.
  apply param_determined_bind; [by apply param_determined_Sequential|].
  intros x2.
  apply param_determined_bind; [apply param_determined_lift|]. intros s.
  apply param_determined_bind.
  - apply param_determined_call; [done|].
    rewrite Forall_forall in Hr. by apply Hr.
  - intros y. apply param_determined_ret.
Qed.

Lemma param_preserving_ret {A P} (par : MState → P) ms (a : A) :
  param_preserving par ms (ret a).
Proof. intros h. by apply Forall_forall. Qed.

Lemma param_preserving_lift {A P} (par : MState → P) ms (r : result A) :
  param_preserving par ms (lift r).
Proof. intros h. by apply Forall_forall. Qed.

Lemma param_preserving_bind {A B P} (par : MState → P) ms
    (c : M A) (k : A → M B) :
  param_preserving par ms c → (∀ a, param_preserving par ms (k a)) →
  param_preserving par ms (bind c k).
Proof.
  intros Hc Hk h. unfold bind. specialize (Hc h).
  destruct (c h) as [[a|e] h1]; simpl in *; [|done].
  specialize (Hk a h1). unfold same_params in *. rewrite Forall_forall in *.
  intros m Hm. by rewrite Hk, Hc.
Qed.

Lemma param_preserving_call {P} (par : MState → P) ms m x :
  keeps_params par m → param_preserving par ms (call m x).
Proof.
  intros Hk h. apply Forall_forall. intros m' Hm'. unfold call.
  destruct (h !! addr m) as [s|] eqn:E; [|done].
  specialize (Hk s x). destruct (fwd (cls m) s x) as [r s']. simpl in *.
  destruct (decide (addr m = addr m')) as [Ea|Ea].
  - rewrite <- Ea, list_lookup_insert_eq by (by eapply lookup_lt_Some).
    rewrite E. simpl. by rewrite Hk.
  - by rewrite list_lookup_insert_ne.
Qed.

Lemma param_preserving_Sequential {P} (par : MState → P) ms layers x :
  Forall (keeps_params par) layers →
  param_preserving par ms (Sequential_forward layers x).
Proof.
  revert x. induction layers as [|m layers IH]; intros x Hk; simpl.
  - apply param_preserving_ret.
  - inversion Hk; subst. apply param_preserving_bind.
    + by apply param_preserving_call.
    + intros y. by apply IH.
Qed.

Lemma param_preserving_residual {P} (par : MState → P) ms s1 s2 last x :
  Forall (keeps_params par) (last :: s1 ++ s2) →
  param_preserving par ms (residual_forward s1 s2 last x).
Proof.
  intros Hk. inversion Hk as [|? ? Hl Hk']; subst.
  apply Forall_app in Hk' as [H1 H2]. unfold residual_forward.
  apply param_preserving_bind; [by apply param_preserving_Sequential|].
  intros x1.
  apply param_preserving_bind; [by apply param_preserving_Sequential|].
  intros x2.
  apply param_preserving_bind; [apply param_preserving_lift|]. intros s.
  apply param_preserving_bind; [by apply param_preserving_call|].
  intros y. apply param_preserving_ret.
Qed.

End Effects.

(** ** Sequences of layers *)

Section Sequences.
Context `{T : Torch}.

Lemma Sequential_forward_app l1 l2 x h :
  Sequential_forward (l1 ++ l2) x h =
  (y <- Sequential_forward l1 x ;; Sequential_forward l2 y) h.
Proof.
  revert x h. induction l1 as [|m l1 IH]; intros x h; simpl.
  - done.
  - rewrite bind_assoc. apply bind_ext. intros y h1. apply IH.
Qed.


Lemma Sequential_forward_identity layers x h :
  Forall identity_op layers → wf layers h →
  Sequential_forward layers x h = (Ok x, h).
Proof.
  induction layers as [|m layers IH]; intros Hid Hwf; simpl; [done|].
  inversion Hid; subst. inversion Hwf; subst.
  erewrite bind_ok by (by apply call_identity). by apply IH.
Qed.

Lemma Sequential_forward_shape layers sh x h :
  Forall (λ m, keeps_shape (cls m) sh) layers → wf layers h → shape x = sh →
  ∃ y h', Sequential_forward layers x h = (Ok y, h') ∧ shape y = sh ∧
          length h' = length h.
Proof.
  revert x h. induction layers as [|m layers IH]; intros x h Hk Hwf Hx; simpl.
  - by eexists _, _.
  - inversion Hk; subst. inversion Hwf; subst.
    destruct (call_shape m x h (shape x)) as (y & h1 & E & Hy & Hl); try done.
    erewrite bind_ok by done.
    destruct (IH y h1) as (z & h2 & E2 & Hz & Hl2); try done.
    { unfold wf in *. by rewrite Hl. }
    exists z, h2. split; [done|]. split; [done | congruence].
Qed.

Lemma wf_mono (ms : list Mod) h h' : wf ms h → length h ≤ length h' → wf ms h'.
Proof.
  unfold wf. intros Hwf Hle. eapply Forall_impl; [done|]. simpl. lia.
Qed.

End Sequences.

(** ** What the constructors build *)

Section Construction.
Context `{T : Torch}.

Lemma norm_layer_inv nt C h n h' :
  norm_layer nt C h = (Ok n, h') →
  normalization_of nt C n ∧ wf n h' ∧ length h' = length h + length n.
Proof.
  unfold norm_layer, normalization_of. destruct nt as [kind|].
  - unfold bind, lift, new, ret.
    destruct (build_normalization (Some kind)) as [ctor|e] eqn:E; [|done].
    intros [= <- <-]. split; [by eexists _, _|].
    rewrite length_app. simpl. split; [|lia].
    unfold wf. constructor; [simpl; rewrite length_app; simpl; lia | constructor].
  - intros [= <- <-]. split; [done|]. split; [constructor | simpl; lia].
Qed.

Lemma norm_layer_err nt C h e h' :
  norm_layer nt C h = (Err e, h') →
  h' = h ∧ ∃ kind, nt = Some kind ∧ build_normalization (Some kind) = Err e.
Proof.
  unfold norm_layer. destruct nt as [kind|]; [|done].
  unfold bind, lift, new, ret.
  destruct (build_normalization (Some kind)) as [ctor|e'] eqn:E; [done|].
  intros [= -> <-]. eauto.
Qed.

Lemma norm_layer_ok nt C h :
  (∀ kind, nt = Some kind → ∃ ctor, build_normalization (Some kind) = Ok ctor) →
  ∃ n h', norm_layer nt C h = (Ok n, h').
Proof.
  intros Hsel. unfold norm_layer. destruct nt as [kind|].
  - destruct (Hsel kind eq_refl) as [ctor E].
    unfold bind, lift, new, ret. rewrite E. by eexists _, _.
  - by eexists _, _.
Qed.

Lemma primitive_inv c C a nt h seq h' :
  primitive c C a nt h = (Ok seq, h') →
  ∃ l n, seq = l :: n ++ act_layer a ∧ cls l = c ∧ normalization_of nt C n ∧
         addr l = length h ∧ wf (l :: n) h' ∧
         length h' = S (length h) + length n.
Proof.
  unfold primitive. intros E.
  apply bind_inv in E as (l & h1 & El & E). injection El as <- <-.
  apply bind_inv in E as (n & h2 & En & E). injection E as <- <-.
  apply norm_layer_inv in En as (Hn & Hwf & Hle).
  rewrite length_app in Hle. simpl in Hle.
  exists (Module_ (length h) c), n. repeat split; try done; [|lia].
  constructor; [simpl; lia | done].
Qed.

Lemma primitive_err c C a nt h e h' :
  primitive c C a nt h = (Err e, h') →
  ∃ kind, nt = Some kind ∧ build_normalization (Some kind) = Err e.
Proof.
  unfold primitive, bind at 1, new. 
  unfold bind. destruct (norm_layer nt C _) as [[n|e'] h1] eqn:En; [done|].
  intros [= -> <-]. by apply norm_layer_err in En as [_ ?].
Qed.

Lemma primitive_ok c C a nt h :
  (∀ kind, nt = Some kind → ∃ ctor, build_normalization (Some kind) = Ok ctor) →
  ∃ seq h', primitive c C a nt h = (Ok seq, h').
Proof.
  intros Hsel. unfold primitive, bind at 1, new.
  destruct (norm_layer_ok nt C (h ++ [init_state c]) Hsel) as (n & h' & E).
  erewrite bind_ok by done. by eexists _, _.
Qed.

End Construction.

(** ** The forward passes, layer by layer *)

Section Forward.
Context `{T : Torch}.

Lemma bind_Sequential_cons {B} m layers x (k : Tensor → M B) h :
  bind (Sequential_forward (m :: layers) x) k h =
  (y <- call m x ;; z <- Sequential_forward layers y ;; k z) h.
Proof. simpl. apply bind_assoc. Qed.

Lemma bind_Sequential_nil {B} x (k : Tensor → M B) h :
  bind (Sequential_forward [] x) k h = k x h.
Proof. done. Qed.

Lemma bind_Sequential_app {B} l1 l2 x (k : Tensor → M B) h :
  bind (Sequential_forward (l1 ++ l2) x) k h =
  (y <- Sequential_forward l1 x ;; z <- Sequential_forward l2 y ;; k z) h.
Proof.
  rewrite <- bind_assoc. unfold bind at 1 3.
  by rewrite Sequential_forward_app.
Qed.

(** Run the first computation of both sides of an equation, given its
    outcome; an exception closes the goal. *)
Ltac run_both E :=
  first
    [ erewrite bind_ok by exact E; symmetry;
      erewrite bind_ok by exact E; symmetry
    | erewrite bind_err by exact E; symmetry;
      erewrite bind_err by exact E; reflexivity ].

(** The residual pattern over two primitive blocks, spelled out. *)
Lemma residual_forward_layers l1 n1 a1 l2 n2 last x h :
  residual_forward (l1 :: n1 ++ a1) (l2 :: n2) last x h =
  (y <- call l1 x ;; y <- Sequential_forward n1 y ;;
   y <- Sequential_forward a1 y ;;
   z <- call l2 y ;; z <- Sequential_forward n2 z ;;
   s <- lift (tadd z x) ;; call last s) h.
Proof.
  unfold residual_forward.
  rewrite bind_Sequential_cons. apply bind_ext. intros y1 h1.
  rewrite bind_Sequential_app. apply bind_ext. intros y2 h2.
  apply bind_ext. intros y3 h3.
  rewrite bind_Sequential_cons. apply bind_ext. intros z1 h4.
  apply bind_ext. intros z2 h5. apply bind_ext. intros s h6.
  apply bind_ret_r.
Qed.

(** With identities for normalization and activation only the two layers
    and the addition are left. *)
Lemma residual_forward_identity l1 n1 a1 l2 n2 last x h :
  Forall identity_op (n1 ++ a1 ++ n2) → identity_op last →
  wf (last :: n1 ++ a1 ++ n2) h →
  residual_forward (l1 :: n1 ++ a1) (l2 :: n2) last x h =
  (y <- call l1 x ;; z <- call l2 y ;; lift (tadd z x)) h.
Proof.
  intros Hid Hlast Hwf. rewrite residual_forward_layers.
  apply Forall_app in Hid as [Hn1 Hid]. apply Forall_app in Hid as [Ha1 Hn2].
  inversion Hwf as [|? ? Hl Hwf']; subst.
  apply Forall_app in Hwf' as [Wn1 Hwf']. apply Forall_app in Hwf' as [Wa1 Wn2].
  pose proof (call_length l1 x h) as L1.
  destruct (call l1 x h) as [[y|e] h1] eqn:E1; simpl in L1; run_both E1.
  assert (W1 : ∀ ms : list Mod, wf ms h → wf ms h1).
  { intros ms W. apply (wf_mono ms h); [done | lia]. }
  erewrite bind_ok by (apply Sequential_forward_identity; auto).
  erewrite bind_ok by (apply Sequential_forward_identity; auto).
  pose proof (call_length l2 y h1) as L2.
  destruct (call l2 y h1) as [[z|e] h2] eqn:E2; simpl in L2; run_both E2.
  assert (W2 : ∀ ms : list Mod, wf ms h1 → wf ms h2).
  { intros ms W. apply (wf_mono ms h1); [done | lia]. }
  erewrite bind_ok by (apply Sequential_forward_identity; auto).
  unfold bind, lift. destruct (tadd z x) as [s|e]; [|done].
  apply call_identity; [done | lia].
Qed.

End Forward.

(** ** What the three constructors return *)

Section Constructors.
Context `{T : Torch}.

Lemma conv2d_block_primitive cin cout k st p a nt h :
  conv2d_block cin cout k st p a nt h =
  primitive (Conv2d cin cout k st p) cout a nt h.
Proof. done. Qed.

Lemma fc_block_primitive cin cout a nt h :
  fc_block cin cout a nt h = primitive (Linear cin cout) cout a nt h.
Proof. done. Qed.

Lemma ResBlock_init_invalid C a nt rt h :
  rt ∉ ["basic"; "bottleneck"]%string →
  ResBlock.__init__ C a nt rt h =
  (Err (AssertionError
     ("residual type only support basic and bottleneck, not:" +:+ rt)), h).
Proof.
  intros Hrt. unfold ResBlock.__init__. by rewrite bool_decide_eq_false_2.
Qed.

Lemma ResBlock_init_valid C a nt rt h :
  rt ∈ ["basic"; "bottleneck"]%string →
  ResBlock.__init__ C a nt rt h =
  (conv1 <- primitive (Conv2d C C 3 1 1) C (Some a) nt ;;
   conv2 <- primitive (Conv2d C C 3 1 1) C None nt ;;
   ret (ResBlock.Build a rt conv1 conv2)) h.
Proof.
  intros Hrt. unfold ResBlock.__init__. by rewrite bool_decide_eq_true_2.
Qed.

Lemma ResBlock_init_inv C a nt rt h b h' :
  ResBlock.__init__ C a nt rt h = (Ok b, h') →
  rt ∈ ["basic"; "bottleneck"]%string ∧
  ∃ c1 n1 c2 n2,
    b = ResBlock.Build a rt (c1 :: n1 ++ [a]) (c2 :: n2) ∧
    cls c1 = Conv2d C C 3 1 1 ∧ cls c2 = Conv2d C C 3 1 1 ∧
    normalization_of nt C n1 ∧ normalization_of nt C n2 ∧
    wf (c1 :: n1 ++ c2 :: n2) h' ∧ length h + 2 ≤ length h'.
Proof.
  intros E.
  destruct (decide (rt ∈ ["basic"; "bottleneck"]%string)) as [Hrt|Hrt];
    [|by rewrite ResBlock_init_invalid in E].
  split; [done|]. rewrite ResBlock_init_valid in E by done.
  apply bind_inv in E as (s1 & h1 & E1 & E).
  apply bind_inv in E as (s2 & h2 & E2 & E). injection E as <- <-.
  apply primitive_inv in E1 as (c1 & n1 & -> & Hc1 & Hn1 & _ & W1 & L1).
  apply primitive_inv in E2 as (c2 & n2 & -> & Hc2 & Hn2 & _ & W2 & L2).
  simpl. rewrite app_nil_r. exists c1, n1, c2, n2.
  repeat split; try done; [|lia].
  unfold wf in *. rewrite app_comm_cons. apply Forall_app. split; [|done].
  eapply Forall_impl; [exact W1|]. simpl. lia.
Qed.

Lemma ResFCBlock_init_inv C a nt h b h' :
  ResFCBlock.__init__ C a nt h = (Ok b, h') →
  ∃ l1 n1 l2 n2,
    b = ResFCBlock.Build a (l1 :: n1 ++ [a]) (l2 :: n2) ∧
    cls l1 = Linear C C ∧ cls l2 = Linear C C ∧
    normalization_of nt C n1 ∧ normalization_of nt C n2 ∧
    wf (l1 :: n1 ++ l2 :: n2) h' ∧ length h + 2 ≤ length h'.
Proof.
  intros E. unfold ResFCBlock.__init__ in E.
  apply bind_inv in E as (s1 & h1 & E1 & E).
  apply bind_inv in E as (s2 & h2 & E2 & E). injection E as <- <-.
  rewrite fc_block_primitive in E1, E2.
  apply primitive_inv in E1 as (l1 & n1 & -> & Hc1 & Hn1 & _ & W1 & L1).
  apply primitive_inv in E2 as (l2 & n2 & -> & Hc2 & Hn2 & _ & W2 & L2).
  simpl. rewrite app_nil_r. exists l1, n1, l2, n2.
  repeat split; try done; [|lia].
  unfold wf in *. rewrite app_comm_cons. apply Forall_app. split; [|done].
  eapply Forall_impl; [exact W1|]. simpl. lia.
Qed.

Lemma ResFCBlock2_init_inv C a nt h b h' :
  ResFCBlock2.__init__ C a nt h = (Ok b, h') →
  ∃ l1 l2 n ctor,
    b = ResFCBlock2.Build a [l1; a] [l2] n ∧
    cls l1 = Linear C C ∧ cls l2 = Linear C C ∧
    build_normalization nt = Ok ctor ∧ cls n = ctor C ∧
    addr l1 = length h ∧ addr l2 = length h + 1 ∧ addr n = length h + 2 ∧
    length h' = length h + 3.
Proof.
  intros E. unfold ResFCBlock2.__init__ in E.
  apply bind_inv in E as (s1 & h1 & E1 & E).
  apply bind_inv in E as (s2 & h2 & E2 & E).
  apply bind_inv in E as (ctor & h3 & E3 & E).
  apply bind_inv in E as (n & h4 & E4 & E). injection E as <- <-.
  rewrite fc_block_primitive in E1, E2.
  apply primitive_inv in E1 as (l1 & n1 & -> & Hc1 & Hn1 & A1 & W1 & L1).
  apply primitive_inv in E2 as (l2 & n2 & -> & Hc2 & Hn2 & A2 & W2 & L2).
  simpl in Hn1, Hn2. subst n1 n2. simpl in *.
  unfold lift in E3. injection E3 as E3 <-.
  unfold new in E4. injection E4 as <- <-.
  exists l1, l2, (Module_ (length h2) (ctor C)), ctor.
  rewrite length_app. simpl. repeat split; try done; lia.
Qed.

End Constructors.

(** ** The forward passes of the three blocks *)

Section ForwardClaims.
Context `{T : Torch}.

(** C1. A [ResBlock] that the constructor returned consists of a first
    primitive block [conv, normalization, activation] and a second one
    [conv, normalization] without activation, both 3x3 convolutions with
    stride 1 and padding 1 on [C] channels; its forward pass runs the first,
    then the second, adds the saved input and applies the activation to the
    sum.  When the normalization layers and the activation are identity
    operators, what is left is [conv2(conv1(x)) + x]. *)
Theorem ResBlock_forward_computes C a nt rt h b h' :
  ResBlock.__init__ C a nt rt h = (Ok b, h') →
  ∃ c1 n1 c2 n2,
    ResBlock.conv1 b = c1 :: n1 ++ [a] ∧ ResBlock.conv2 b = c2 :: n2 ∧
    ResBlock.act b = a ∧
    cls c1 = Conv2d C C 3 1 1 ∧ cls c2 = Conv2d C C 3 1 1 ∧
    normalization_of nt C n1 ∧ normalization_of nt C n2 ∧
    (∀ x hh, ResBlock.forward b x hh =
       (y <- call c1 x ;; y <- Sequential_forward n1 y ;; y <- call a y ;;
        z <- call c2 y ;; z <- Sequential_forward n2 z ;;
        s <- lift (tadd z x) ;; call a s) hh) ∧
    (identity_op a → Forall identity_op (n1 ++ n2) →
     ∀ x hh, addr a < length hh → length h' ≤ length hh →
       ResBlock.forward b x hh =
       (y <- call c1 x ;; z <- call c2 y ;; lift (tadd z x)) hh).
Proof.
  intros E. apply ResBlock_init_inv in E as (_ & c1 & n1 & c2 & n2 & -> & Hc1 &
    Hc2 & Hn1 & Hn2 & Hwf & Hlen).
  exists c1, n1, c2, n2. repeat split; try done.
  - intros x hh. change (ResBlock.forward ?b x hh)
      with (residual_forward (ResBlock.conv1 b) (ResBlock.conv2 b)
              (ResBlock.act b) x hh). simpl.
    rewrite residual_forward_layers.
    apply bind_ext. intros y1 h1. apply bind_ext. intros y2 h2.
    rewrite bind_Sequential_cons. apply bind_ext. intros y3 h3. done.
  - intros Ha Hn x hh Hla Hle.
    change (ResBlock.forward ?b x hh)
      with (residual_forward (ResBlock.conv1 b) (ResBlock.conv2 b)
              (ResBlock.act b) x hh). simpl.
    apply residual_forward_identity; [| done |].
    + apply Forall_app in Hn as [H1 H2]. rewrite !Forall_app. repeat split; try done.
      by constructor.
    + unfold wf in *. inversion Hwf as [|? ? _ Hwf']; subst.
      apply Forall_app in Hwf' as [W1 W2]. inversion W2 as [|? ? _ W2']; subst.
      constructor; [done|]. rewrite !Forall_app. repeat split.
      * eapply Forall_impl; [exact W1|]. simpl. lia.
      * by constructor.
      * eapply Forall_impl; [exact W2'|]. simpl. lia.
Qed.

(** C4. A [ResFCBlock] that the constructor returned consists of a first
    primitive block [linear, normalization, activation] and a second one
    [linear, normalization] without activation; its forward pass runs the
    first, then the second, adds the saved input and applies the activation
    to the sum.  With identity normalization and identity activation what is
    left is [fc2(fc1(x)) + x]. *)
Theorem ResFCBlock_forward_computes C a nt h b h' :
  ResFCBlock.__init__ C a nt h = (Ok b, h') →
  ∃ l1 n1 l2 n2,
    ResFCBlock.fc1 b = l1 :: n1 ++ [a] ∧ ResFCBlock.fc2 b = l2 :: n2 ∧
    ResFCBlock.act b = a ∧
    cls l1 = Linear C C ∧ cls l2 = Linear C C ∧
    normalization_of nt C n1 ∧ normalization_of nt C n2 ∧
    (∀ x hh, ResFCBlock.forward b x hh =
       (y <- call l1 x ;; y <- Sequential_forward n1 y ;; y <- call a y ;;
        z <- call l2 y ;; z <- Sequential_forward n2 z ;;
        s <- lift (tadd z x) ;; call a s) hh) ∧
    (identity_op a → Forall identity_op (n1 ++ n2) →
     ∀ x hh, addr a < length hh → length h' ≤ length hh →
       ResFCBlock.forward b x hh =
       (y <- call l1 x ;; z <- call l2 y ;; lift (tadd z x)) hh).
Proof.
  intros E. apply ResFCBlock_init_inv in E as (l1 & n1 & l2 & n2 & -> & Hc1 &
    Hc2 & Hn1 & Hn2 & Hwf & Hlen).
  exists l1, n1, l2, n2. repeat split; try done.
  - intros x hh. change (ResFCBlock.forward ?b x hh)
      with (residual_forward (ResFCBlock.fc1 b) (ResFCBlock.fc2 b)
              (ResFCBlock.act b) x hh). simpl.
    rewrite residual_forward_layers.
    apply bind_ext. intros y1 h1. apply bind_ext. intros y2 h2.
    rewrite bind_Sequential_cons. apply bind_ext. intros y3 h3. done.
  - intros Ha Hn x hh Hla Hle.
    change (ResFCBlock.forward ?b x hh)
      with (residual_forward (ResFCBlock.fc1 b) (ResFCBlock.fc2 b)
              (ResFCBlock.act b) x hh). simpl.
    apply residual_forward_identity; [| done |].
    + apply Forall_app in Hn as [H1 H2]. rewrite !Forall_app. repeat split; try done.
      by constructor.
    + unfold wf in *. inversion Hwf as [|? ? _ Hwf']; subst.
      apply Forall_app in Hwf' as [W1 W2]. inversion W2 as [|? ? _ W2']; subst.
      constructor; [done|]. rewrite !Forall_app. repeat split.
      * eapply Forall_impl; [exact W1|]. simpl. lia.
      * by constructor.
      * eapply Forall_impl; [exact W2'|]. simpl. lia.
Qed.

(** C3. A [ResFCBlock2] that the constructor returned consists of a first
    primitive block [linear, activation] and a second one [linear], neither
    with a normalization layer, and of one normalization object of the
    selected class, built after them at an address of its own; its forward
    pass runs the first block, then the second, adds the saved input and
    ends with the normalization of the sum: nothing follows it. *)
Theorem ResFCBlock2_forward_computes C a nt h b h' :
  ResFCBlock2.__init__ C a nt h = (Ok b, h') →
  ∃ l1 l2 ctor,
    ResFCBlock2.fc1 b = [l1; a] ∧ ResFCBlock2.fc2 b = [l2] ∧
    ResFCBlock2.act b = a ∧
    cls l1 = Linear C C ∧ cls l2 = Linear C C ∧
    build_normalization nt = Ok ctor ∧ cls (ResFCBlock2.norm b) = ctor C ∧
    addr l1 = length h ∧ addr l2 = length h + 1 ∧
    addr (ResFCBlock2.norm b) = length h + 2 ∧ length h' = length h + 3 ∧
    ∀ x hh, ResFCBlock2.forward b x hh =
      (y <- call l1 x ;; y <- call a y ;; z <- call l2 y ;;
       s <- lift (tadd z x) ;; call (ResFCBlock2.norm b) s) hh.
Proof.
  intros E. apply ResFCBlock2_init_inv in E as (l1 & l2 & n & ctor & -> & Hc1 &
    Hc2 & Hsel & Hn & A1 & A2 & A3 & Hlen).
  exists l1, l2, ctor. repeat split; try done.
  intros x hh. change (ResFCBlock2.forward ?b x hh)
    with (residual_forward (ResFCBlock2.fc1 b) (ResFCBlock2.fc2 b)
            (ResFCBlock2.norm b) x hh). simpl.
  rewrite (residual_forward_layers l1 [] [a] l2 [] n).
  apply bind_ext. intros y1 h1. rewrite bind_Sequential_nil.
  rewrite bind_Sequential_cons. apply bind_ext. intros y2 h2.
  rewrite bind_Sequential_nil. apply bind_ext. intros z h3.
  by rewrite bind_Sequential_nil.
Qed.

(** C5. Building a [ResBlock] with [res_type="bottleneck"] is building it
    with [res_type="basic"] and writing the other tag into the result: the
    same sub-blocks at the same addresses, the same heap, the same
    exception if there is one.  The forward pass never reads the tag. *)
Theorem ResBlock_bottleneck_is_basic C a nt h :
  ResBlock.__init__ C a nt "bottleneck" h =
    (b <- ResBlock.__init__ C a nt "basic" ;;
     ret (ResBlock.with_res_type "bottleneck" b)) h ∧
  ∀ b tag x hh,
    ResBlock.forward (ResBlock.with_res_type tag b) x hh =
    ResBlock.forward b x hh.
Proof.
  split; [|done].
  rewrite ResBlock_init_valid by repeat constructor.
  symmetry. unfold bind at 1.
  rewrite ResBlock_init_valid by repeat constructor. unfold bind.
  destruct (primitive _ C (Some a) nt h) as [[s1|e1] h1]; [|done].
  by destruct (primitive _ C None nt h1) as [[s2|e2] h2].
Qed.

End ForwardClaims.

(** ** Construction: validation and failures *)

Section ConstructionClaims.
Context `{T : Torch}.

(** The selector has a class for the kind a primitive block asks for. *)
Lemma selector_accepts nt :
  nt = None ∨ (∃ ctor, build_normalization nt = Ok ctor) →
  ∀ kind, nt = Some kind → ∃ ctor, build_normalization (Some kind) = Ok ctor.
Proof. intros [->|[ctor E]] kind Hk; [done | subst; eauto]. Qed.

(** C2. A residual-type tag outside ["basic"; "bottleneck"] makes
    [ResBlock.__init__] raise an [AssertionError] whose message ends with
    the tag.  With a tag of the list the assertion passes: the constructor
    returns a block whenever the normalization selector has a class for the
    kind, and an exception it raises is the selector's.  [ResFCBlock] and
    [ResFCBlock2] check nothing themselves: they return a block whenever
    the selector has a class, and raise only what the selector raises. *)
Theorem res_type_is_the_only_validation :
  (∀ C a nt rt h, rt ∉ ["basic"; "bottleneck"]%string →
     ResBlock.__init__ C a nt rt h =
     (Err (AssertionError
        ("residual type only support basic and bottleneck, not:" +:+ rt)), h)) ∧
  (∀ C a nt rt h, rt ∈ ["basic"; "bottleneck"]%string →
     (nt = None ∨ (∃ ctor, build_normalization nt = Ok ctor) →
      ∃ b h', ResBlock.__init__ C a nt rt h = (Ok b, h')) ∧
     (∀ e h', ResBlock.__init__ C a nt rt h = (Err e, h') →
      ∃ kind, nt = Some kind ∧ build_normalization (Some kind) = Err e)) ∧
  (∀ C a nt h,
     (nt = None ∨ (∃ ctor, build_normalization nt = Ok ctor) →
      ∃ b h', ResFCBlock.__init__ C a nt h = (Ok b, h')) ∧
     (∀ e h', ResFCBlock.__init__ C a nt h = (Err e, h') →
      ∃ kind, nt = Some kind ∧ build_normalization (Some kind) = Err e)) ∧
  (∀ C a nt h,
     ((∃ ctor, build_normalization nt = Ok ctor) →
      ∃ b h', ResFCBlock2.__init__ C a nt h = (Ok b, h')) ∧
     (∀ e h', ResFCBlock2.__init__ C a nt h = (Err e, h') →
      build_normalization nt = Err e)).
Proof.
  split; [apply @ResBlock_init_invalid|]. split; [|split].
  - intros C a nt rt h Hrt. rewrite ResBlock_init_valid by done. split.
    + intros Hsel0. pose proof (selector_accepts nt Hsel0) as Hsel.
      destruct (primitive_ok (Conv2d C C 3 1 1) C (Some a) nt h Hsel)
        as (s1 & h1 & E1).
      destruct (primitive_ok (Conv2d C C 3 1 1) C None nt h1 Hsel)
        as (s2 & h2 & E2).
      erewrite bind_ok by done. erewrite bind_ok by done. by eexists _, _.
    + intros e h'. unfold bind.
      destruct (primitive _ C (Some a) nt h) as [[s1|e1] h1] eqn:E1.
      * destruct (primitive _ C None nt h1) as [[s2|e2] h2] eqn:E2; [done|].
        intros [= -> <-]. by apply primitive_err in E2.
      * intros [= -> <-]. by apply primitive_err in E1.
  - intros C a nt h. unfold ResFCBlock.__init__. split.
    + intros Hsel0. pose proof (selector_accepts nt Hsel0) as Hsel.
      destruct (primitive_ok (Linear C C) C (Some a) nt h Hsel)
        as (s1 & h1 & E1).
      destruct (primitive_ok (Linear C C) C None nt h1 Hsel)
        as (s2 & h2 & E2).
      rewrite <- fc_block_primitive in E1, E2.
      erewrite bind_ok by done. erewrite bind_ok by done. by eexists _, _.
    + intros e h'. unfold bind.
      destruct (fc_block C C (Some a) nt h) as [[s1|e1] h1] eqn:E1.
      * destruct (fc_block C C None nt h1) as [[s2|e2] h2] eqn:E2; [done|].
        intros [= -> <-]. rewrite fc_block_primitive in E2.
        by apply primitive_err in E2.
      * intros [= -> <-]. rewrite fc_block_primitive in E1.
        by apply primitive_err in E1.
  - intros C a nt h. unfold ResFCBlock2.__init__.
    assert (Hnone : ∀ kind, @None string = Some kind →
              ∃ ctor, build_normalization (Some kind) = Ok ctor) by done.
    destruct (primitive_ok (Linear C C) C (Some a) None h Hnone)
      as (s1 & h1 & E1).
    destruct (primitive_ok (Linear C C) C None None h1 Hnone)
      as (s2 & h2 & E2).
    rewrite <- fc_block_primitive in E1, E2.
    rewrite (bind_ok _ _ _ _ _ E1), (bind_ok _ _ _ _ _ E2).
    unfold bind, lift, new, ret. split.
    + intros [ctor ->]. by eexists _, _.
    + intros e h'. destruct (build_normalization nt) as [ctor|e']; [done|].
      by intros [= -> <-].
Qed.

(** C10. When the residual-type tag is outside ["basic"; "bottleneck"],
    [ResBlock.__init__] ends in the assertion's exception with the heap it
    was given: no convolution or normalization object has been allocated,
    and the selector has not been asked, whatever the normalization kind
    is.  A construction that returns a block has allocated at least the two
    convolutions. *)
Theorem ResBlock_failed_validation_allocates_nothing C a nt rt h :
  rt ∉ ["basic"; "bottleneck"]%string →
  (ResBlock.__init__ C a nt rt h).2 = h ∧
  (∃ msg, (ResBlock.__init__ C a nt rt h).1 = Err (AssertionError msg)) ∧
  (∀ rt' b h', ResBlock.__init__ C a nt rt' h = (Ok b, h') →
     rt' ∈ ["basic"; "bottleneck"]%string ∧ length h + 2 ≤ length h').
Proof.
  intros Hrt. rewrite ResBlock_init_invalid by done. simpl.
  split; [done|]. split; [by eexists|].
  intros rt' b h' E.
  apply ResBlock_init_inv in E as (Hin & c1 & n1 & c2 & n2 & _ & _ & _ & _ & _ & _ & L).
  done.
Qed.

End ConstructionClaims.

(** ** Shapes *)

Section Shapes.
Context `{TS : TorchShapes}.

Lemma conv_out_3_1_1 n : 0 < n → conv_out n 3 1 1 = n.
Proof. intros Hn. unfold conv_out. rewrite Nat.div_1_r. lia. Qed.

(** A 3x3 convolution with stride 1 and padding 1 from [C] to [C] channels
    returns the shape it was given. *)
Lemma Conv2d_3_1_1_keeps_shape B C H W :
  0 < B → 0 < C → 0 < H → 0 < W →
  keeps_shape (Conv2d C C 3 1 1) [B; C; H; W].
Proof.
  intros HB HC HH HW s x Hx.
  destruct (Conv2d_shape C C 3 1 1 B H W) with (s := s) (x := x)
    as (y & s' & E & Hy); try done; try lia.
  exists y, s'. split; [done|]. by rewrite Hy, !conv_out_3_1_1.
Qed.

Lemma Linear_keeps_shape B C :
  0 < B → 0 < C → keeps_shape (Linear C C) [B; C].
Proof.
  intros HB HC s x Hx.
  by destruct (Linear_shape C C B) with (s := s) (x := x) as (y & s' & E & Hy);
    eauto.
Qed.

Lemma normalization_keeps_shape nt C n sh :
  normalization_of nt C n →
  (∀ ctor, build_normalization nt = Ok ctor → keeps_shape (ctor C) sh) →
  Forall (λ m, keeps_shape (cls m) sh) n.
Proof.
  unfold normalization_of. intros Hn Hk. destruct nt as [kind|].
  - destruct Hn as (ctor & m & E & -> & Hm). constructor; [|done].
    rewrite Hm. by apply Hk.
  - by subst n.
Qed.

Lemma Forall_block_modules (P : Mod → Prop) a l1 n1 l2 n2 :
  P a → P l1 → P l2 → Forall P n1 → Forall P n2 →
  Forall P (a :: (l1 :: n1 ++ [a]) ++ l2 :: n2).
Proof.
  intros Ha H1 H2 Hn1 Hn2. constructor; [done|]. simpl. constructor; [done|].
  rewrite <- app_assoc. apply Forall_app. split; [done|]. simpl.
  by repeat constructor.
Qed.

Lemma wf_block_modules a l1 n1 l2 n2 h1 h :
  wf (l1 :: n1 ++ l2 :: n2) h1 → length h1 ≤ length h → addr a < length h →
  wf (a :: (l1 :: n1 ++ [a]) ++ l2 :: n2) h.
Proof.
  intros Hwf Hle Ha. apply (wf_mono _ h1 h) in Hwf; [|done]. unfold wf in *.
  inversion Hwf as [|? ? A1 Hwf']; subst.
  apply Forall_app in Hwf' as [W1 Hwf']. inversion Hwf' as [|? ? A2 W2]; subst.
  by apply Forall_block_modules.
Qed.

Lemma residual_forward_shape s1 s2 last sh x h :
  Forall (λ m, keeps_shape (cls m) sh) (last :: s1 ++ s2) →
  wf (last :: s1 ++ s2) h → shape x = sh →
  ∃ y h', residual_forward s1 s2 last x h = (Ok y, h') ∧ shape y = sh ∧
          length h' = length h.
Proof.
  intros Hk Hwf Hx. inversion Hk as [|? ? Kl Hk']; subst.
  apply Forall_app in Hk' as [K1 K2]. inversion Hwf as [|? ? Wl Hwf']; subst.
  apply Forall_app in Hwf' as [W1 W2]. unfold residual_forward.
  destruct (Sequential_forward_shape s1 (shape x) x h)
    as (y1 & h1 & E1 & Hy1 & L1); try done.
  erewrite bind_ok by done.
  destruct (Sequential_forward_shape s2 (shape x) y1 h1)
    as (y2 & h2 & E2 & Hy2 & L2); try done.
  { apply (wf_mono s2 h); [done | lia]. }
  erewrite bind_ok by done.
  destruct (tadd_shape y2 x) as (s & Es & Hs); [congruence|].
  unfold bind at 1, lift. rewrite Es.
  destruct (call_shape last s h2 (shape x)) as (y & h3 & E3 & Hy & L3);
    try done; [lia | congruence |].
  erewrite bind_ok by done. exists y, h3. split; [done|].
  split; [done | lia].
Qed.

(** C6. Take a [ResBlock] built for [C] channels, with an activation and a
    normalization that return the shape they are given on [B; C; H; W].  On
    every heap that still holds its objects and every input of shape
    [B; C; H; W], the forward pass returns a tensor, and its shape is
    [B; C; H; W]: each of the two convolutions is 3x3 with stride 1 and
    padding 1 from [C] to [C] channels, so the sum with the saved input is
    between equal shapes. *)
Theorem ResBlock_forward_shape C a nt rt h0 b h1 B H W :
  0 < B → 0 < C → 0 < H → 0 < W →
  keeps_shape (cls a) [B; C; H; W] →
  (∀ ctor, build_normalization nt = Ok ctor →
     keeps_shape (ctor C) [B; C; H; W]) →
  addr a < length h0 →
  ResBlock.__init__ C a nt rt h0 = (Ok b, h1) →
  ∀ h x, length h1 ≤ length h → shape x = [B; C; H; W] →
    ∃ y h', ResBlock.forward b x h = (Ok y, h') ∧ shape y = [B; C; H; W].
Proof.
  intros HB HC HH HW Ka Kn Ha E h x Hle Hx.
  apply ResBlock_init_inv in E as (_ & c1 & n1 & c2 & n2 & -> & Hc1 & Hc2 &
    Hn1 & Hn2 & Hwf & Hlen).
  pose proof (Conv2d_3_1_1_keeps_shape B C H W HB HC HH HW) as Kc.
  pose proof (normalization_keeps_shape nt C n1 _ Hn1 Kn) as K1.
  pose proof (normalization_keeps_shape nt C n2 _ Hn2 Kn) as K2.
  destruct (residual_forward_shape (c1 :: n1 ++ [a]) (c2 :: n2) a
              [B; C; H; W] x h) as (y & h' & Ey & Hy & _); [| |done|].
  - apply Forall_block_modules; try done; by rewrite ?Hc1, ?Hc2.
  - apply (wf_block_modules a c1 n1 c2 n2 h1); [done | done | lia].
  - by exists y, h'.
Qed.

(** C7. Take a [ResFCBlock] or a [ResFCBlock2] built for [C] channels, with
    an activation and a normalization that return the shape they are given
    on [B; C].  On every heap that still holds its objects and every input
    of shape [B; C], the forward pass returns a tensor, and its shape is
    [B; C]: both linear layers go from [C] features to [C] features. *)
Theorem ResFC_forward_shape C a nt B :
  0 < B → 0 < C →
  keeps_shape (cls a) [B; C] →
  (∀ ctor, build_normalization nt = Ok ctor → keeps_shape (ctor C) [B; C]) →
  (∀ h0 b h1, addr a < length h0 →
     ResFCBlock.__init__ C a nt h0 = (Ok b, h1) →
     ∀ h x, length h1 ≤ length h → shape x = [B; C] →
       ∃ y h', ResFCBlock.forward b x h = (Ok y, h') ∧ shape y = [B; C]) ∧
  (∀ h0 b h1, addr a < length h0 →
     ResFCBlock2.__init__ C a nt h0 = (Ok b, h1) →
     ∀ h x, length h1 ≤ length h → shape x = [B; C] →
       ∃ y h', ResFCBlock2.forward b x h = (Ok y, h') ∧ shape y = [B; C]).
Proof.
  intros HB HC Ka Kn.
  pose proof (Linear_keeps_shape B C HB HC) as Kl. split.
  - intros h0 b h1 Ha E h x Hle Hx.
    apply ResFCBlock_init_inv in E as (l1 & n1 & l2 & n2 & -> & Hc1 & Hc2 &
      Hn1 & Hn2 & Hwf & Hlen).
    pose proof (normalization_keeps_shape nt C n1 _ Hn1 Kn) as K1.
    pose proof (normalization_keeps_shape nt C n2 _ Hn2 Kn) as K2.
    destruct (residual_forward_shape (l1 :: n1 ++ [a]) (l2 :: n2) a
                [B; C] x h) as (y & h' & Ey & Hy & _); [| |done|].
    + apply Forall_block_modules; try done; by rewrite ?Hc1, ?Hc2.
    + apply (wf_block_modules a l1 n1 l2 n2 h1); [done | done | lia].
    + by exists y, h'.
  - intros h0 b h1 Ha E h x Hle Hx.
    apply ResFCBlock2_init_inv in E as (l1 & l2 & n & ctor & -> & Hc1 & Hc2 &
      Hsel & Hn & A1 & A2 & A3 & Hlen).
    destruct (residual_forward_shape [l1; a] [l2] n [B; C] x h)
      as (y & h' & Ey & Hy & _); [| |done|].
    + simpl. repeat constructor; simpl;
        [rewrite Hn; by apply Kn | by rewrite Hc1 | done | by rewrite Hc2].
    + unfold wf. simpl. repeat constructor; lia.
    + by exists y, h'.
Qed.

End Shapes.

(** ** Effects of a forward pass *)

Section EffectClaims.
Context `{T : Torch}.

Lemma sublist_modules (l1 l2 : list Mod) m :
  l1 ⊆ m :: l1 ++ l2 ∧ l2 ⊆ m :: l1 ++ l2 ∧ m ∈ m :: l1 ++ l2.
Proof.
  repeat split.
  - intros x Hx. right. apply elem_of_app. by left.
  - intros x Hx. right. apply elem_of_app. by right.
  - by left.
Qed.

Lemma modules_ResFCBlock2 (b : ResFCBlock2.t) :
  ResFCBlock2.fc1 b ⊆ ResFCBlock2.modules b ∧
  ResFCBlock2.fc2 b ⊆ ResFCBlock2.modules b ∧
  ResFCBlock2.norm b ∈ ResFCBlock2.modules b ∧
  ∀ Q : Mod → Prop, Forall Q (ResFCBlock2.modules b) →
    Forall Q (ResFCBlock2.norm b :: ResFCBlock2.fc1 b ++ ResFCBlock2.fc2 b).
Proof.
  repeat split.
  - intros m Hm. do 2 right. apply elem_of_app. by left.
  - intros m Hm. do 2 right. apply elem_of_app. by right.
  - right. by left.
  - intros Q HQ. unfold ResFCBlock2.modules in HQ. by inversion HQ.
Qed.


(** C9, as the code has it.  Read the parameters off a state by any [par].
    For each of the three blocks, when what every object of the block
    returns, and the parameters it leaves, depend on its state through the
    parameters only, two forward passes on the same input, started on heaps
    that hold the same parameters for the objects of the block, end in the
    same tensor or the same exception and leave the same parameters,
    whatever else the objects or the heap hold.  When moreover no call
    changes the parameters, a pass gives what it would have given before
    any other pass of the block. *)
Theorem forward_deterministic :
  (∀ (P : Type) (par : MState → P) (b : ResBlock.t),
     Forall (reads_params par) (ResBlock.modules b) →
     (∀ x h1 h2, same_params par (ResBlock.modules b) h1 h2 →
        (ResBlock.forward b x h1).1 = (ResBlock.forward b x h2).1 ∧
        same_params par (ResBlock.modules b)
          (ResBlock.forward b x h1).2 (ResBlock.forward b x h2).2) ∧
     (Forall (keeps_params par) (ResBlock.modules b) →
      ∀ x y h,
        (ResBlock.forward b x (ResBlock.forward b y h).2).1 =
        (ResBlock.forward b x h).1)) ∧
  (∀ (P : Type) (par : MState → P) (b : ResFCBlock.t),
     Forall (reads_params par) (ResFCBlock.modules b) →
     (∀ x h1 h2, same_params par (ResFCBlock.modules b) h1 h2 →
        (ResFCBlock.forward b x h1).1 = (ResFCBlock.forward b x h2).1 ∧
        same_params par (ResFCBlock.modules b)
          (ResFCBlock.forward b x h1).2 (ResFCBlock.forward b x h2).2) ∧
     (Forall (keeps_params par) (ResFCBlock.modules b) →
      ∀ x y h,
        (ResFCBlock.forward b x (ResFCBlock.forward b y h).2).1 =
        (ResFCBlock.forward b x h).1)) ∧
  (∀ (P : Type) (par : MState → P) (b : ResFCBlock2.t),
     Forall (reads_params par) (ResFCBlock2.modules b) →
     (∀ x h1 h2, same_params par (ResFCBlock2.modules b) h1 h2 →
        (ResFCBlock2.forward b x h1).1 = (ResFCBlock2.forward b x h2).1 ∧
        same_params par (ResFCBlock2.modules b)
          (ResFCBlock2.forward b x h1).2 (ResFCBlock2.forward b x h2).2) ∧
     (Forall (keeps_params par) (ResFCBlock2.modules b) →
      ∀ x y h,
        (ResFCBlock2.forward b x (ResFCBlock2.forward b y h).2).1 =
        (ResFCBlock2.forward b x h).1)).
Proof.
  split; [|split]; intros P par b Hr.
  - destruct (sublist_modules (ResBlock.conv1 b) (ResBlock.conv2 b)
                (ResBlock.act b)) as (S1 & S2 & S3).
    assert (D : ∀ x, param_determined par (ResBlock.modules b)
                       (ResBlock.forward b x))
      by (intros x; by apply (param_determined_residual par _ _ _ _ x S1 S2 S3)).
    split; [intros x h1 h2 Hs; by apply D|].
    intros Hk x y h. apply D.
    by apply (param_preserving_residual par _ _ _ _ y Hk).
  - destruct (sublist_modules (ResFCBlock.fc1 b) (ResFCBlock.fc2 b)
                (ResFCBlock.act b)) as (S1 & S2 & S3).
    assert (D : ∀ x, param_determined par (ResFCBlock.modules b)
                       (ResFCBlock.forward b x))
      by (intros x; by apply (param_determined_residual par _ _ _ _ x S1 S2 S3)).
    split; [intros x h1 h2 Hs; by apply D|].
    intros Hk x y h. apply D.
    by apply (param_preserving_residual par _ _ _ _ y Hk).
  - destruct (modules_ResFCBlock2 b) as (S1 & S2 & S3 & Hall).
    assert (D : ∀ x, param_determined par (ResFCBlock2.modules b)
                       (ResFCBlock2.forward b x))
      by (intros x; by apply (param_determined_residual par _ _ _ _ x S1 S2 S3)).
    split; [intros x h1 h2 Hs; by apply D|].
    intros Hk x y h. apply D.
    by apply (param_preserving_residual par _ _ _ _ y (Hall _ Hk)).
Qed.

End EffectClaims.

(** ** The integer backend at work *)

Section IntBackend.
Local Existing Instance IntTorch.torch.

Lemma IntTorch_shapes : TorchShapes.
Proof.
  split.
  - intros a b Hs. simpl in *. unfold IntTorch.add.
    destruct (decide (IntTorch.tshape a = IntTorch.tshape b)); [|done].
    by eexists.
  - intros cin cout k st p B H W HB Hcin Hcout HH HW Hk Hst HkH HkW s x Hx.
    simpl in *. unfold IntTorch.conv2d_forward. rewrite Hx.
    destruct (decide (cin = cin ∧ 0 < st ∧ k ≤ H + 2 * p ∧ k ≤ W + 2 * p))
      as [_|Hn]; [by eexists _, _ | by destruct Hn].
  - intros cin cout B HB Hcin Hcout s x Hx.
    simpl in *. unfold IntTorch.linear_forward. rewrite Hx.
    destruct (decide (cin = cin)); [by eexists _, _ | done].
Qed.

Lemma relu_keeps_shape sh : keeps_shape IntTorch.relu sh.
Proof. intros s x Hx. by eexists _, _. Qed.

Lemma relu_stateless a : stateless (Module_ a IntTorch.relu).
Proof. by intros s x. Qed.

Lemma identity_is_identity a : identity_op (Module_ a IntTorch.identity).
Proof. by intros s x. Qed.

Lemma batch_norm_keeps_shape B C rest :
  1 < B * IntTorch.numel rest →
  keeps_shape (IntTorch.batch_norm C) (B :: C :: rest).
Proof.
  intros Hn s x Hx. simpl in *. rewrite Hx.
  destruct (decide (C = C)); [|done].
  destruct (decide (B * IntTorch.numel rest ≤ 1)); [lia|].
  by eexists _, _.
Qed.

Lemma layer_norm_keeps_shape B C :
  keeps_shape (IntTorch.layer_norm C) [B; C].
Proof.
  intros s x Hx. simpl in *. rewrite Hx. simpl.
  destruct (decide (Some C = Some C)); [by eexists _, _ | done].
Qed.


(** On the backend the objects of the blocks read their weights and
    biases and nothing else of their state, and leave them as they are. *)
Lemma relu_parameters a :
  reads_params IntTorch.parameters (Module_ a IntTorch.relu) ∧
  keeps_params IntTorch.parameters (Module_ a IntTorch.relu).
Proof. split; [by intros s1 s2 x Hp | by intros s x]. Qed.

Lemma conv2d_parameters a cin cout k st p :
  reads_params IntTorch.parameters (Module_ a (IntTorch.conv2d cin cout k st p)) ∧
  keeps_params IntTorch.parameters (Module_ a (IntTorch.conv2d cin cout k st p)).
Proof.
  split.
  - intros [w1 b1 n1] [w2 b2 n2] x [= -> ->]. simpl.
    unfold IntTorch.conv2d_forward. simpl. repeat case_match; done.
  - intros s x. simpl. unfold IntTorch.conv2d_forward.
    repeat case_match; done.
Qed.

Lemma batch_norm_parameters a C :
  reads_params IntTorch.parameters (Module_ a (IntTorch.batch_norm C)) ∧
  keeps_params IntTorch.parameters (Module_ a (IntTorch.batch_norm C)).
Proof.
  split.
  - intros [w1 b1 n1] [w2 b2 n2] x [= -> ->]. simpl.
    repeat case_match; done.
  - intros s x. simpl. repeat case_match; done.
Qed.

Lemma invalid_tag : "invalid"%string ∉ ["basic"; "bottleneck"]%string.
Proof. intros Hin. by repeat (inversion Hin as [|? ? ? Hin']; subst; clear Hin; rename Hin' into Hin). Qed.

(** A basic block with batch normalization on one channel: the all-ones
    convolution gives 6 everywhere, a constant channel, which batch
    normalization sends to 0; so does the second sub-block, the input is
    added back and the activation cuts the negative entry.  Both batch
    normalizations have counted one batch. *)
Example ResBlock_runs :
  ∃ b h1, ResBlock.__init__ 1 relu0 (Some "BN"%string) "basic" h0 = (Ok b, h1) ∧
    (ResBlock.forward b img0 h1).1 =
      Ok (IntTorch.Tensor_ [1; 1; 2; 2] [1; 0; 3; 4]%Z) ∧
    addr <$> ResBlock.modules b = [0; 2; 3; 0; 4; 5].
Proof. eexists _, _. split; [reflexivity|]. by vm_compute. Qed.

(** A tag that is not in the list stops the constructor with the heap as
    it was; a kind the selector does not know stops it inside the first
    sub-block, after the convolution has been allocated. *)
Example ResBlock_init_fails :
  ResBlock.__init__ 1 relu0 (Some "BN"%string) "invalid" h0 =
    (Err (AssertionError
       "residual type only support basic and bottleneck, not:invalid"), h0) ∧
  (ResBlock.__init__ 1 relu0 (Some "XX"%string) "bottleneck" h0).1 =
    Err (ExternalError "invalid norm type: XX") ∧
  length (ResBlock.__init__ 1 relu0 (Some "XX"%string) "bottleneck" h0).2 = 3.
Proof. repeat split; reflexivity. Qed.

(** Variant A ends with the activation, variant B with the normalization.
    In A the rows the normalizations see are constant and go to 0, so the
    input comes back through the activation; in B the last operator is the
    normalization, and on a constant row it returns 0. *)
Example ResFCBlock_runs :
  ∃ b h1, ResFCBlock.__init__ 2 relu0 (Some "LN"%string) h0 = (Ok b, h1) ∧
    (ResFCBlock.forward b vec0 h1).1 = Ok (IntTorch.Tensor_ [1; 2] [1; 0]%Z).
Proof. eexists _, _. split; [reflexivity|]. by vm_compute. Qed.

Example ResFCBlock2_runs :
  ∃ b h1, ResFCBlock2.__init__ 2 relu0 (Some "LN"%string) h0 = (Ok b, h1) ∧
    (ResFCBlock2.forward b (IntTorch.Tensor_ [1; 2] [3; 3]%Z) h1).1 =
      Ok (IntTorch.Tensor_ [1; 2] [0; 0]%Z).
Proof. eexists _, _. split; [reflexivity|]. by vm_compute. Qed.

End IntBackend.

(** ** The theorems at concrete blocks *)

Section Witnesses.
Local Existing Instance IntTorch.torch.

Lemma ResBlock_forward_computes_witness :
  (∃ b h1,
     ResBlock.__init__ 1 relu0 (Some "BN"%string) "basic" h0 = (Ok b, h1) ∧
     ∃ c1 n1 c2 n2,
       ResBlock.conv1 b = c1 :: n1 ++ [relu0] ∧ ResBlock.conv2 b = c2 :: n2 ∧
       normalization_of (Some "BN"%string) 1 n1 ∧
       normalization_of (Some "BN"%string) 1 n2) ∧
  (∃ b h1,
     ResBlock.__init__ 1 id0 None "basic" h0 = (Ok b, h1) ∧
     ∃ c1 c2,
       ResBlock.conv1 b = [c1; id0] ∧ ResBlock.conv2 b = [c2] ∧
       ResBlock.forward b img0 h1 =
       (y <- call c1 img0 ;; z <- call c2 y ;; lift (tadd z img0)) h1).
Proof.
  split.
  - eexists _, _. split; [reflexivity|].
    destruct (ResBlock_forward_computes 1 relu0 (Some "BN"%string) "basic" h0
                _ _ eq_refl)
      as (c1 & n1 & c2 & n2 & H1 & H2 & _ & _ & _ & N1 & N2 & _).
    exists c1, n1, c2, n2. repeat split; assumption.
  - eexists _, _. split; [reflexivity|].
    destruct (ResBlock_forward_computes 1 id0 None "basic" h0 _ _ eq_refl)
      as (c1 & n1 & c2 & n2 & H1 & H2 & _ & _ & _ & N1 & N2 & _ & Hid).
    simpl in N1, N2. subst n1 n2. exists c1, c2.
    split; [exact H1|]. split; [exact H2|].
    apply Hid; [apply identity_is_identity | constructor | simpl; lia | done].
Defined.

Lemma ResFCBlock_forward_computes_witness :
  (∃ b h1,
     ResFCBlock.__init__ 2 relu0 (Some "LN"%string) h0 = (Ok b, h1) ∧
     ∃ l1 n1 l2 n2,
       ResFCBlock.fc1 b = l1 :: n1 ++ [relu0] ∧ ResFCBlock.fc2 b = l2 :: n2 ∧
       normalization_of (Some "LN"%string) 2 n1 ∧
       normalization_of (Some "LN"%string) 2 n2) ∧
  (∃ b h1,
     ResFCBlock.__init__ 2 id0 None h0 = (Ok b, h1) ∧
     ∃ l1 l2,
       ResFCBlock.fc1 b = [l1; id0] ∧ ResFCBlock.fc2 b = [l2] ∧
       ResFCBlock.forward b vec0 h1 =
       (y <- call l1 vec0 ;; z <- call l2 y ;; lift (tadd z vec0)) h1).
Proof.
  split.
  - eexists _, _. split; [reflexivity|].
    destruct (ResFCBlock_forward_computes 2 relu0 (Some "LN"%string) h0
                _ _ eq_refl)
      as (l1 & n1 & l2 & n2 & H1 & H2 & _ & _ & _ & N1 & N2 & _).
    exists l1, n1, l2, n2. repeat split; assumption.
  - eexists _, _. split; [reflexivity|].
    destruct (ResFCBlock_forward_computes 2 id0 None h0 _ _ eq_refl)
      as (l1 & n1 & l2 & n2 & H1 & H2 & _ & _ & _ & N1 & N2 & _ & Hid).
    simpl in N1, N2. subst n1 n2. exists l1, l2.
    split; [exact H1|]. split; [exact H2|].
    apply Hid; [apply identity_is_identity | constructor | simpl; lia | done].
Defined.

Lemma ResFCBlock2_forward_computes_witness :
  ∃ b h1, ResFCBlock2.__init__ 2 relu0 (Some "LN"%string) h0 = (Ok b, h1) ∧
    ∃ l1 l2,
      ResFCBlock2.fc1 b = [l1; relu0] ∧ ResFCBlock2.fc2 b = [l2] ∧
      addr (ResFCBlock2.norm b) = length h0 + 2.
Proof.
  eexists _, _. split; [reflexivity|].
  destruct (ResFCBlock2_forward_computes 2 relu0 (Some "LN"%string) h0
              _ _ eq_refl) as (l1 & l2 & ctor & H1 & H2 & _ & _ & _ & _ & _ & _ & _ & A & _).
  exists l1, l2. repeat split; assumption.
Defined.

Lemma ResBlock_forward_shape_witness :
  ∃ b h1, ResBlock.__init__ 1 relu0 (Some "BN"%string) "basic" h0 = (Ok b, h1) ∧
    ∃ y h', ResBlock.forward b img0 h1 = (Ok y, h') ∧ shape y = [1; 1; 2; 2].
Proof.
  eexists _, _. split; [reflexivity|].
  eapply (ResBlock_forward_shape (TS := IntTorch_shapes)
            1 relu0 (Some "BN"%string) "basic" h0 _ _ 1 2 2);
    try lia; try reflexivity.
  - apply relu_keeps_shape.
  - intros ctor [= <-]. apply batch_norm_keeps_shape. simpl. lia.
  - simpl. lia.
Defined.

Lemma ResFC_forward_shape_witness :
  (∃ b h1, ResFCBlock.__init__ 2 relu0 (Some "LN"%string) h0 = (Ok b, h1) ∧
     ∃ y h', ResFCBlock.forward b vec0 h1 = (Ok y, h') ∧ shape y = [1; 2]) ∧
  (∃ b h1, ResFCBlock2.__init__ 2 relu0 (Some "LN"%string) h0 = (Ok b, h1) ∧
     ∃ y h', ResFCBlock2.forward b vec0 h1 = (Ok y, h') ∧ shape y = [1; 2]).
Proof.
  destruct (ResFC_forward_shape (TS := IntTorch_shapes)
              2 relu0 (Some "LN"%string) 1) as [HA HB]; try lia.
  - apply relu_keeps_shape.
  - intros ctor [= <-]. apply layer_norm_keeps_shape.
  - split; eexists _, _; (split; [reflexivity|]).
    + eapply HA; try reflexivity; simpl; lia.
    + eapply HB; try reflexivity; simpl; lia.
Defined.

Lemma ResBlock_failed_validation_allocates_nothing_witness :
  (ResBlock.__init__ 1 relu0 (Some "BN"%string) "invalid" h0).2 = h0 ∧
  ∃ msg, (ResBlock.__init__ 1 relu0 (Some "BN"%string) "invalid" h0).1 =
         Err (AssertionError msg).
Proof.
  destruct (ResBlock_failed_validation_allocates_nothing
              1 relu0 (Some "BN"%string) "invalid" h0 invalid_tag)
    as (Hh & Hmsg & _).
  split; assumption.
Defined.

(** C6, as the claim has it, fails.  A basic block with batch
    normalization (the default kind) on an input of shape [1; 1; 1; 1],
    all sizes positive, returns no tensor: the batch normalization of the
    first sub-block is in training mode and rejects one value per
    channel. *)
Lemma ResBlock_forward_rejects_single_value :
  ∃ b h1, ResBlock.__init__ 1 relu0 (Some "BN"%string) "basic" h0 = (Ok b, h1) ∧
    shape pixel = [1; 1; 1; 1] ∧
    ∃ msg, (ResBlock.forward b pixel h1).1 = Err (ExternalError msg).
Proof.
  eexists _, _. split; [reflexivity|]. split; [reflexivity|].
  eexists. reflexivity.
Qed.

(** C7, as the claim has it, fails.  A [ResFCBlock] with batch
    normalization (the default kind) on a batch of one vector, of shape
    [1; 2], returns no tensor: the batch normalization of the first
    sub-block rejects one value per channel. *)
Lemma ResFCBlock_forward_rejects_batch_of_one :
  ∃ b h1, ResFCBlock.__init__ 2 relu0 (Some "BN"%string) h0 = (Ok b, h1) ∧
    shape vec0 = [1; 2] ∧
    ∃ msg, (ResFCBlock.forward b vec0 h1).1 = Err (ExternalError msg).
Proof.
  eexists _, _. split; [reflexivity|]. split; [reflexivity|].
  eexists. reflexivity.
Qed.



(** C9, as the claim has it, fails.  A basic block around a randomized
    activation ([nn.RReLU], training mode) returns different tensors in
    two passes in a row on the same input, although every object holds the
    same weights and biases before both. *)
Lemma forward_depends_on_the_generator :
  ∃ b h1, ResBlock.__init__ 1 rrelu0 None "basic" hr = (Ok b, h1) ∧
    same_params IntTorch.parameters (ResBlock.modules b)
      h1 (ResBlock.forward b img_neg h1).2 ∧
    (ResBlock.forward b img_neg h1).1 ≠
    (ResBlock.forward b img_neg (ResBlock.forward b img_neg h1).2).1.
Proof.
  eexists _, _. split; [reflexivity|]. split.
  - unfold same_params. simpl. repeat constructor.
  - intros Heq. vm_compute in Heq. discriminate.
Qed.

(** With the default activation and batch normalization two passes in a
    row return the same, although the second starts from a heap in which
    the normalizations have counted a batch. *)
Lemma forward_deterministic_witness :
  ∃ b h1, ResBlock.__init__ 1 relu0 (Some "BN"%string) "basic" h0 = (Ok b, h1) ∧
    (ResBlock.forward b img0 (ResBlock.forward b img0 h1).2).1 =
    (ResBlock.forward b img0 h1).1.
Proof.
  eexists _, _. split; [reflexivity|].
  match goal with |- (ResBlock.forward ?b _ _).1 = _ =>
    refine (proj2 (proj1 (forward_deterministic (T:=IntTorch.torch))
                     _ IntTorch.parameters b _) _ _ _ _)
  end.
  - repeat first [apply Forall_nil_2 | apply Forall_cons_2];
      first [apply relu_parameters | apply conv2d_parameters
            | apply batch_norm_parameters].
  - repeat first [apply Forall_nil_2 | apply Forall_cons_2];
      first [apply relu_parameters | apply conv2d_parameters
            | apply batch_norm_parameters].
Defined.

End Witnesses.

(** * Further properties of the constructors and the forward passes *)

(** ** Constructors only append *)

Section Appends.
Context `{T : Torch}.

Lemma appends_ret {A} (a : A) : appends (ret a).
Proof. by intros h. Qed.

Lemma appends_lift {A} (r : result A) : appends (lift r).
Proof. by intros h. Qed.

Lemma appends_raise {A} e : appends (raise (A := A) e).
Proof. by intros h. Qed.

Lemma appends_new c : appends (new c).
Proof. intros h. simpl. by apply prefix_app_r. Qed.

Lemma appends_bind {A B} (c : M A) (k : A → M B) :
  appends c → (∀ a, appends (k a)) → appends (bind c k).
Proof.
  intros Hc Hk h. unfold bind. specialize (Hc h).
  destruct (c h) as [[a|e] h1]; simpl in *; [|done].
  etrans; [exact Hc | apply Hk].
Qed.

Lemma appends_norm_layer nt C : appends (norm_layer nt C).
Proof.
  unfold norm_layer. destruct nt as [kind|]; [|apply appends_ret].
  apply appends_bind; [apply appends_lift|]. intros ctor.
  apply appends_bind; [apply appends_new|]. intros n. apply appends_ret.
Qed.

Lemma appends_primitive c C a nt : appends (primitive c C a nt).
Proof.
  unfold primitive. apply appends_bind; [apply appends_new|]. intros l.
  apply appends_bind; [apply appends_norm_layer|]. intros n.
  apply appends_ret.
Qed.

Lemma ResBlock_init_appends C a nt rt : appends (ResBlock.__init__ C a nt rt).
Proof.
  unfold ResBlock.__init__. case_bool_decide; [|apply appends_raise].
  apply appends_bind; [apply appends_primitive|]. intros s1.
  apply appends_bind; [apply appends_primitive|]. intros s2.
  apply appends_ret.
Qed.

Lemma ResFCBlock_init_appends C a nt : appends (ResFCBlock.__init__ C a nt).
Proof.
  unfold ResFCBlock.__init__.
  apply appends_bind; [apply appends_primitive|]. intros s1.
  apply appends_bind; [apply appends_primitive|]. intros s2.
  apply appends_ret.
Qed.

Lemma ResFCBlock2_init_appends C a nt : appends (ResFCBlock2.__init__ C a nt).
Proof.
  unfold ResFCBlock2.__init__.
  apply appends_bind; [apply appends_primitive|]. intros s1.
  apply appends_bind; [apply appends_primitive|]. intros s2.
  apply appends_bind; [apply appends_lift|]. intros ctor.
  apply appends_bind; [apply appends_new|]. intros n. apply appends_ret.
Qed.

(** X1. Whatever the arguments and whatever the outcome, the three
    constructors only append to the heap: every object that existed before
    the call, the activation that is passed in among them, is at its
    address with its state afterwards. *)
Theorem constructors_only_append :
  (∀ C a nt rt h i s,
     h !! i = Some s → (ResBlock.__init__ C a nt rt h).2 !! i = Some s) ∧
  (∀ C a nt h i s,
     h !! i = Some s → (ResFCBlock.__init__ C a nt h).2 !! i = Some s) ∧
  (∀ C a nt h i s,
     h !! i = Some s → (ResFCBlock2.__init__ C a nt h).2 !! i = Some s).
Proof.
  split; [|split]; intros; (eapply prefix_lookup_Some; [eassumption|]).
  - apply ResBlock_init_appends.
  - apply ResFCBlock_init_appends.
  - apply ResFCBlock2_init_appends.
Qed.

End Appends.

(** ** The objects a constructor allocates *)

Section Fresh.
Context `{T : Torch}.

Lemma norm_layer_fresh nt C h n h' :
  norm_layer nt C h = (Ok n, h') →
  consecutive (length h) n ∧ length h' = length h + length n ∧
  length n = match nt with Some _ => 1 | None => 0 end.
Proof.
  unfold norm_layer, consecutive. destruct nt as [kind|].
  - unfold bind, lift, new, ret.
    destruct (build_normalization (Some kind)) as [ctor|e]; [|done].
    intros [= <- <-]. rewrite length_app. by simpl.
  - intros [= <- <-]. simpl. split; [done|]. split; [lia | done].
Qed.

Lemma primitive_fresh c C a nt h seq h' :
  primitive c C a nt h = (Ok seq, h') →
  ∃ l n, seq = l :: n ++ act_layer a ∧
         consecutive (length h) (l :: n) ∧
         length h' = length h + length (l :: n) ∧
         length n = match nt with Some _ => 1 | None => 0 end.
Proof.
  unfold primitive. intros E.
  apply bind_inv in E as (l & h1 & El & E). injection El as <- <-.
  apply bind_inv in E as (n & h2 & En & E). injection E as <- <-.
  apply norm_layer_fresh in En as (Hc & Hl & Hn).
  rewrite length_app in Hc, Hl. simpl in Hc, Hl.
  exists (Module_ (length h) c), n. split; [done|].
  unfold consecutive in *. rewrite fmap_cons, Hc. simpl.
  replace (length h + 1) with (S (length h)) by lia.
  split; [done|]. split; [lia | done].
Qed.

Lemma consecutive_app k ms1 ms2 :
  consecutive k ms1 → consecutive (k + length ms1) ms2 →
  consecutive k (ms1 ++ ms2).
Proof.
  unfold consecutive. intros H1 H2.
  by rewrite fmap_app, length_app, seq_app, H1, H2.
Qed.

Lemma consecutive_NoDup k ms : consecutive k ms → NoDup (addr <$> ms).
Proof. unfold consecutive. intros ->. apply NoDup_seq. Qed.

Lemma consecutive_bounds k ms m :
  consecutive k ms → m ∈ ms → k ≤ addr m < k + length ms.
Proof.
  unfold consecutive. intros Hc Hm.
  apply (list_elem_of_fmap_2 addr) in Hm. rewrite Hc in Hm.
  by apply elem_of_seq in Hm.
Qed.

(** The layers the two sub-blocks of a [ResBlock] or a [ResFCBlock] got
    from their primitives, in the order they were allocated. *)
Lemma two_primitives_fresh c C a nt h s1 h1 s2 h2 :
  primitive c C (Some a) nt h = (Ok s1, h1) →
  primitive c C None nt h1 = (Ok s2, h2) →
  ∃ l1 n1 l2 n2,
    s1 = l1 :: n1 ++ [a] ∧ s2 = l2 :: n2 ∧
    consecutive (length h) (l1 :: n1 ++ l2 :: n2) ∧
    length h2 = length h + length (l1 :: n1 ++ l2 :: n2) ∧
    length (l1 :: n1 ++ l2 :: n2) = match nt with Some _ => 4 | None => 2 end.
Proof.
  intros E1 E2.
  apply primitive_fresh in E1 as (l1 & n1 & -> & C1 & L1 & N1).
  apply primitive_fresh in E2 as (l2 & n2 & -> & C2 & L2 & N2).
  exists l1, n1, l2, n2. simpl act_layer. rewrite app_nil_r.
  split; [done|]. split; [done|].
  rewrite L1 in C2. split; [|split].
  - by apply (consecutive_app _ (l1 :: n1) (l2 :: n2)).
  - rewrite app_comm_cons, length_app. lia.
  - rewrite app_comm_cons, length_app. simpl. rewrite N1, N2.
    by destruct nt.
Qed.

(** X2. A [ResBlock] that the constructor returned has, besides the
    activation it was given, two fresh layers when there is no
    normalization and four when there is a kind.  In the order of
    construction they sit at exactly the addresses the constructor added to
    the heap: they are pairwise different objects (the two normalizations
    share no state) and none is an object that existed before. *)
Theorem ResBlock_layers_are_fresh C a nt rt h b h' :
  ResBlock.__init__ C a nt rt h = (Ok b, h') →
  ∃ c1 n1 c2 n2,
    ResBlock.conv1 b = c1 :: n1 ++ [a] ∧ ResBlock.conv2 b = c2 :: n2 ∧
    length h' = length h + match nt with Some _ => 4 | None => 2 end ∧
    addr <$> (c1 :: n1 ++ c2 :: n2) = seq (length h) (length h' - length h) ∧
    NoDup (addr <$> (c1 :: n1 ++ c2 :: n2)).
Proof.
  intros E.
  destruct (decide (rt ∈ ["basic"; "bottleneck"]%string)) as [Hrt|Hrt];
    [|by rewrite ResBlock_init_invalid in E].
  rewrite ResBlock_init_valid in E by done.
  apply bind_inv in E as (s1 & h1 & E1 & E).
  apply bind_inv in E as (s2 & h2 & E2 & E). injection E as <- <-.
  destruct (two_primitives_fresh _ _ _ _ _ _ _ _ _ E1 E2)
    as (c1 & n1 & c2 & n2 & -> & -> & Hc & Hl & Hn).
  exists c1, n1, c2, n2. split; [done|]. split; [done|].
  split; [by rewrite Hl, Hn|]. split; [|by eapply consecutive_NoDup].
  unfold consecutive in Hc. rewrite Hc. f_equal. lia.
Qed.

(** X3. The same for a [ResFCBlock]: two fresh layers without
    normalization, four with a kind, at exactly the addresses the
    constructor added, pairwise different and different from every object
    that existed before. *)
Theorem ResFCBlock_layers_are_fresh C a nt h b h' :
  ResFCBlock.__init__ C a nt h = (Ok b, h') →
  ∃ l1 n1 l2 n2,
    ResFCBlock.fc1 b = l1 :: n1 ++ [a] ∧ ResFCBlock.fc2 b = l2 :: n2 ∧
    length h' = length h + match nt with Some _ => 4 | None => 2 end ∧
    addr <$> (l1 :: n1 ++ l2 :: n2) = seq (length h) (length h' - length h) ∧
    NoDup (addr <$> (l1 :: n1 ++ l2 :: n2)).
Proof.
  intros E. unfold ResFCBlock.__init__ in E.
  apply bind_inv in E as (s1 & h1 & E1 & E).
  apply bind_inv in E as (s2 & h2 & E2 & E). injection E as <- <-.
  rewrite fc_block_primitive in E1, E2.
  destruct (two_primitives_fresh _ _ _ _ _ _ _ _ _ E1 E2)
    as (l1 & n1 & l2 & n2 & -> & -> & Hc & Hl & Hn).
  exists l1, n1, l2, n2. split; [done|]. split; [done|].
  split; [by rewrite Hl, Hn|]. split; [|by eapply consecutive_NoDup].
  unfold consecutive in Hc. rewrite Hc. f_equal. lia.
Qed.

End Fresh.

(** ** Blocks that share an activation *)

Section Sharing.
Context `{T : Torch}.

(** The objects of a [ResBlock] that the constructor returned: the
    activation it was given, and layers at the addresses it added. *)
Lemma ResBlock_init_bounds C a nt rt h b h' :
  ResBlock.__init__ C a nt rt h = (Ok b, h') →
  ResBlock.act b = a ∧
  ∀ m, m ∈ ResBlock.modules b → m = a ∨ length h ≤ addr m < length h'.
Proof.
  intros E.
  destruct (decide (rt ∈ ["basic"; "bottleneck"]%string)) as [Hrt|Hrt];
    [|by rewrite ResBlock_init_invalid in E].
  rewrite ResBlock_init_valid in E by done.
  apply bind_inv in E as (s1 & h1 & E1 & E).
  apply bind_inv in E as (s2 & h2 & E2 & E). injection E as <- <-.
  destruct (two_primitives_fresh _ _ _ _ _ _ _ _ _ E1 E2)
    as (c1 & n1 & c2 & n2 & -> & -> & Hc & Hl & Hn).
  split; [done|]. intros m Hm. unfold ResBlock.modules in Hm. simpl in Hm.
  assert (Hcases : m = a ∨ m ∈ c1 :: n1 ++ c2 :: n2).
  { apply elem_of_cons in Hm as [->|Hm]; [by left|].
    apply elem_of_cons in Hm as [->|Hm]; [right; by left|].
    apply elem_of_app in Hm as [Hm|Hm].
    - apply elem_of_app in Hm as [Hm|Hm].
      + right. right. apply elem_of_app. by left.
      + apply list_elem_of_singleton in Hm as ->. by left.
    - right. right. apply elem_of_app. by right. }
  destruct Hcases as [->|Hin]; [by left|]. right.
  pose proof (consecutive_bounds _ _ _ Hc Hin). lia.
Qed.

(** X4. Two [ResBlock]s built one after the other around the same
    activation object share that object and nothing else: a forward pass
    of either leaves the state of every other object of the other one
    as it is.  When the shared activation does not change its state when
    called, a forward pass of the first block changes nothing of what
    the second one returns. *)
Theorem ResBlocks_share_only_the_activation
    C1 C2 a nt1 nt2 rt1 rt2 h0 b1 h1 h1' b2 h2 :
  addr a < length h0 →
  ResBlock.__init__ C1 a nt1 rt1 h0 = (Ok b1, h1) →
  length h1 ≤ length h1' →
  ResBlock.__init__ C2 a nt2 rt2 h1' = (Ok b2, h2) →
  ResBlock.act b1 = ResBlock.act b2 ∧
  (∀ m, m ∈ ResBlock.modules b1 → m ∈ ResBlock.modules b2 → m = a) ∧
  (∀ x h m, m ∈ ResBlock.modules b2 → m ≠ a →
     (ResBlock.forward b1 x h).2 !! addr m = h !! addr m) ∧
  (∀ x h m, m ∈ ResBlock.modules b1 → m ≠ a →
     (ResBlock.forward b2 x h).2 !! addr m = h !! addr m) ∧
  (stateless a → ∀ x y h,
     (ResBlock.forward b2 y (ResBlock.forward b1 x h).2).1 =
     (ResBlock.forward b2 y h).1).
Proof.
  intros Ha E1 Hle E2.
  pose proof (prefix_length _ _ (ResBlock_init_appends C1 a nt1 rt1 h0)) as L1.
  rewrite E1 in L1. simpl in L1.
  apply ResBlock_init_bounds in E1 as [A1 B1].
  apply ResBlock_init_bounds in E2 as [A2 B2].
  assert (Q12 : ∀ m, m ∈ ResBlock.modules b2 → (m = a → stateless a) →
            Forall (quiet_at (addr m)) (ResBlock.modules b1)).
  { intros m Hm Hs. apply Forall_forall. intros m1 Hm1 Heq.
    destruct (B1 m1 Hm1) as [E1|Hb1], (B2 m Hm) as [E2|Hb2];
      subst; try lia; auto. }
  assert (Q21 : ∀ m, m ∈ ResBlock.modules b1 → m ≠ a →
            Forall (quiet_at (addr m)) (ResBlock.modules b2)).
  { intros m Hm Hne. apply Forall_forall. intros m2 Hm2 Heq.
    destruct (B1 m Hm) as [E1|Hb1], (B2 m2 Hm2) as [E2|Hb2];
      subst; try lia; done. }
  split; [congruence|]. split; [|split; [|split]].
  - intros m Hm1 Hm2.
    destruct (B1 m Hm1) as [E1|Hb1], (B2 m Hm2) as [E2|Hb2]; try done. lia.
  - intros x h m Hm Hne.
    apply (keeps_at_residual _ _ _ _ x (Q12 m Hm (λ H, False_rect _ (Hne H)))).
  - intros x h m Hm Hne.
    apply (keeps_at_residual _ _ _ _ x (Q21 m Hm Hne)).
  - intros Hs x y h.
    destruct (sublist_modules (ResBlock.conv1 b2) (ResBlock.conv2 b2)
                (ResBlock.act b2)) as (S1 & S2 & S3).
    apply (determined_residual _ _ _ _ y S1 S2 S3).
    apply Forall_forall. intros m Hm.
    apply (keeps_at_residual _ _ _ _ x (Q12 m Hm (λ _, Hs))).
Qed.

End Sharing.

(** ** Where the exceptions of a forward pass come from *)

Section Exceptions.
Context `{T : Torch}.

Lemma raised_inside_mono ms ms' x0 e :
  ms ⊆ ms' → raised_inside ms x0 e → raised_inside ms' x0 e.
Proof.
  intros Hsub [(m & s & y & Hm & E)|H]; [left | by right].
  exists m, s, y. split; [by apply Hsub | done].
Qed.

Lemma raises_inside_ret {A} ms x0 (a : A) : raises_inside ms x0 (ret a).
Proof. by intros h Hwf. Qed.

Lemma raises_inside_add ms x0 y : raises_inside ms x0 (lift (tadd y x0)).
Proof.
  intros h Hwf. split; [done|]. simpl. intros e E. right. by exists y.
Qed.

Lemma raises_inside_bind {A B} ms x0 (c : M A) (k : A → M B) :
  raises_inside ms x0 c → (∀ a, raises_inside ms x0 (k a)) →
  raises_inside ms x0 (bind c k).
Proof.
  intros Hc Hk h Hwf. unfold bind. destruct (Hc h Hwf) as [Hl He].
  destruct (c h) as [[a|e] h1]; simpl in *;
    [|split; [done|]; intros e0 [= <-]; by apply He].
  destruct (Hk a h1) as [Hl' He']; [by apply (wf_mono ms h); [|lia]|].
  split; [congruence | done].
Qed.

Lemma raises_inside_call ms x0 m x :
  m ∈ ms → raises_inside ms x0 (call m x).
Proof.
  intros Hm h Hwf. split; [apply call_length|].
  unfold wf in Hwf. rewrite Forall_forall in Hwf. specialize (Hwf m Hm).
  unfold call. destruct (h !! addr m) as [s|] eqn:E.
  - intros e He. left. exists m, s, x. split; [done|].
    by destruct (fwd (cls m) s x).
  - apply lookup_ge_None in E. lia.
Qed.

Lemma raises_inside_Sequential ms x0 layers x :
  layers ⊆ ms → raises_inside ms x0 (Sequential_forward layers x).
Proof.
  revert x. induction layers as [|m layers IH]; intros x Hsub; simpl.
  - apply raises_inside_ret.
  - apply raises_inside_bind.
    + apply raises_inside_call, Hsub. by left.
    + intros y. apply IH. intros m' Hm'. apply Hsub. by right.
Qed.

Lemma raises_inside_residual ms s1 s2 last x :
  s1 ⊆ ms → s2 ⊆ ms → last ∈ ms →
  raises_inside ms x (residual_forward s1 s2 last x).
Proof.
  intros H1 H2 Hl. unfold residual_forward.
  apply raises_inside_bind; [by apply raises_inside_Sequential|]. intros x1.
  apply raises_inside_bind; [by apply raises_inside_Sequential|]. intros x2.
  apply raises_inside_bind; [apply raises_inside_add|]. intros s.
  apply raises_inside_bind; [by apply raises_inside_call|]. intros y.
  apply raises_inside_ret.
Qed.

(** A computation that ends in [raise] never returns: it raises what was
    raised inside, or else the exception of the [raise]. *)
Lemma raises_inside_raise {A B} ms x0 (c : M A) (e0 : exn) :
  raises_inside ms x0 c →
  ∀ h, wf ms h →
    ∃ e, (bind c (λ _, raise (A:=B) e0) h).1 = Err e ∧
         (raised_inside ms x0 e ∨ e = e0).
Proof.
  intros Hc h Hwf. destruct (Hc h Hwf) as [_ He]. unfold bind.
  destruct (c h) as [[a|e] h1]; simpl in *.
  - exists e0. by split; [|right].
  - exists e. split; [done|]. left. by apply He.
Qed.

Lemma raises_inside_sum ms (s1 s2 : Sequential) x :
  s1 ⊆ ms → s2 ⊆ ms →
  raises_inside ms x
    (x1 <- Sequential_forward s1 x ;;
     x2 <- Sequential_forward s2 x1 ;;
     lift (tadd x2 x)).
Proof.
  intros H1 H2.
  apply raises_inside_bind; [by apply raises_inside_Sequential|]. intros x1.
  apply raises_inside_bind; [by apply raises_inside_Sequential|]. intros x2.
  apply raises_inside_add.
Qed.

Lemma no_activation_raises (s1 s2 : Sequential) x h :
  wf (s1 ++ s2) h →
  ∃ e, (NoActivation.ResBlock_forward (s1, s2) x h).1 = Err e ∧
       (raised_inside (s1 ++ s2) x e ∨
        e = TypeError "'NoneType' object is not callable").
Proof.
  intros Hwf.
  assert (S1 : s1 ⊆ s1 ++ s2) by (intros m Hm; apply elem_of_app; by left).
  assert (S2 : s2 ⊆ s1 ++ s2) by (intros m Hm; apply elem_of_app; by right).
  destruct (raises_inside_raise (B:=Tensor) _ x _
              (TypeError "'NoneType' object is not callable")
              (raises_inside_sum _ s1 s2 x S1 S2) h Hwf) as (e & He & Hor).
  exists e. split; [|done]. rewrite <- He.
  unfold NoActivation.ResBlock_forward. simpl.
  rewrite !bind_assoc. apply (f_equal fst), bind_ext. intros x1 h1.
  by rewrite bind_assoc.
Qed.

(** X5. What the forward passes raise.  Around an activation object they
    raise nothing of their own: on a heap that holds the objects of the
    block, an exception that comes out of a forward pass was raised by the
    forward of one of these objects or by the addition of the saved input.
    Built with [activation=None], [ResBlock.forward] and
    [ResFCBlock.forward] return for no input: they end in such an
    exception, or else in the [TypeError] of calling [None] on the sum;
    [ResFCBlock2.forward], which does not call [self.act], still raises
    nothing of its own. *)
Theorem forward_raises_only_inside :
  (∀ (b : ResBlock.t) x h e,
     wf (ResBlock.modules b) h → (ResBlock.forward b x h).1 = Err e →
     raised_inside (ResBlock.modules b) x e) ∧
  (∀ (b : ResFCBlock.t) x h e,
     wf (ResFCBlock.modules b) h → (ResFCBlock.forward b x h).1 = Err e →
     raised_inside (ResFCBlock.modules b) x e) ∧
  (∀ (b : ResFCBlock2.t) x h e,
     wf (ResFCBlock2.modules b) h → (ResFCBlock2.forward b x h).1 = Err e →
     raised_inside (ResFCBlock2.modules b) x e) ∧
  (∀ (conv1 conv2 : Sequential) x h,
     wf (conv1 ++ conv2) h →
     ∃ e, (NoActivation.ResBlock_forward (conv1, conv2) x h).1 = Err e ∧
          (raised_inside (conv1 ++ conv2) x e ∨
           e = TypeError "'NoneType' object is not callable")) ∧
  (∀ (fc1 fc2 : Sequential) x h,
     wf (fc1 ++ fc2) h →
     ∃ e, (NoActivation.ResFCBlock_forward (fc1, fc2) x h).1 = Err e ∧
          (raised_inside (fc1 ++ fc2) x e ∨
           e = TypeError "'NoneType' object is not callable")) ∧
  (∀ (fc1 fc2 : Sequential) (norm : Mod) x h e,
     wf (norm :: fc1 ++ fc2) h →
     (NoActivation.ResFCBlock2_forward (fc1, fc2, norm) x h).1 = Err e →
     raised_inside (norm :: fc1 ++ fc2) x e).
Proof.
  split; [|split; [|split; [|split; [|split]]]].
  - intros b x h e Hwf He.
    destruct (sublist_modules (ResBlock.conv1 b) (ResBlock.conv2 b)
                (ResBlock.act b)) as (S1 & S2 & S3).
    by apply (raises_inside_residual _ _ _ _ x S1 S2 S3 h Hwf).
  - intros b x h e Hwf He.
    destruct (sublist_modules (ResFCBlock.fc1 b) (ResFCBlock.fc2 b)
                (ResFCBlock.act b)) as (S1 & S2 & S3).
    by apply (raises_inside_residual _ _ _ _ x S1 S2 S3 h Hwf).
  - intros b x h e Hwf He.
    assert (S1 : ResFCBlock2.fc1 b ⊆ ResFCBlock2.modules b).
    { intros m Hm. do 2 right. apply elem_of_app. by left. }
    assert (S2 : ResFCBlock2.fc2 b ⊆ ResFCBlock2.modules b).
    { intros m Hm. do 2 right. apply elem_of_app. by right. }
    assert (S3 : ResFCBlock2.norm b ∈ ResFCBlock2.modules b).
    { right. by left. }
    by apply (raises_inside_residual _ _ _ _ x S1 S2 S3 h Hwf).
  - intros conv1 conv2 x h. apply no_activation_raises.
  - intros fc1 fc2 x h. apply no_activation_raises.
  - intros fc1 fc2 norm x h e Hwf He.
    assert (S1 : fc1 ⊆ norm :: fc1 ++ fc2).
    { intros m Hm. right. apply elem_of_app. by left. }
    assert (S2 : fc2 ⊆ norm :: fc1 ++ fc2).
    { intros m Hm. right. apply elem_of_app. by right. }
    assert (S3 : norm ∈ norm :: fc1 ++ fc2) by by left.
    by apply (raises_inside_residual _ _ _ _ x S1 S2 S3 h Hwf).
Qed.

End Exceptions.

(** ** One activation object, called where the code calls it *)

Section Aliasing.
Context `{T : Torch}.








End Aliasing.

(** ** Stacking blocks *)

Section Stacking.
Context `{TS : TorchShapes}.

(** A forward pass on a well-shaped input returns that shape and leaves a
    heap of the same size, so that the next pass finds its objects. *)
Lemma ResBlock_forward_ready C a nt rt h0 b h1 B H W :
  0 < B → 0 < C → 0 < H → 0 < W →
  keeps_shape (cls a) [B; C; H; W] →
  (∀ ctor, build_normalization nt = Ok ctor →
     keeps_shape (ctor C) [B; C; H; W]) →
  addr a < length h0 →
  ResBlock.__init__ C a nt rt h0 = (Ok b, h1) →
  ∀ h x, length h1 ≤ length h → shape x = [B; C; H; W] →
    ∃ y h', ResBlock.forward b x h = (Ok y, h') ∧ shape y = [B; C; H; W] ∧
            length h' = length h.
Proof.
  intros HB HC HH HW Ka Kn Ha E h x Hle Hx.
  apply ResBlock_init_inv in E as (_ & c1 & n1 & c2 & n2 & -> & Hc1 & Hc2 &
    Hn1 & Hn2 & Hwf & Hlen).
  pose proof (Conv2d_3_1_1_keeps_shape B C H W HB HC HH HW) as Kc.
  pose proof (normalization_keeps_shape nt C n1 _ Hn1 Kn) as K1.
  pose proof (normalization_keeps_shape nt C n2 _ Hn2 Kn) as K2.
  apply (residual_forward_shape (c1 :: n1 ++ [a]) (c2 :: n2) a); [| |done].
  - apply Forall_block_modules; try done; by rewrite ?Hc1, ?Hc2.
  - apply (wf_block_modules a c1 n1 c2 n2 h1); [done | done | lia].
Qed.

(** X9. [ResBlock]s for the same channel count stack: when two of them
    are built around an activation and a normalization that return the
    shape they are given, feeding the output of the first to the second
    returns a tensor of the shape of the input, on every heap that holds
    the objects of both. *)
Theorem ResBlocks_stack C a nt rt1 rt2 h0 b1 h1 g0 b2 g1 B H W :
  0 < B → 0 < C → 0 < H → 0 < W →
  keeps_shape (cls a) [B; C; H; W] →
  (∀ ctor, build_normalization nt = Ok ctor →
     keeps_shape (ctor C) [B; C; H; W]) →
  addr a < length h0 → addr a < length g0 →
  ResBlock.__init__ C a nt rt1 h0 = (Ok b1, h1) →
  ResBlock.__init__ C a nt rt2 g0 = (Ok b2, g1) →
  ∀ h x, length h1 ≤ length h → length g1 ≤ length h →
    shape x = [B; C; H; W] →
    ∃ z h', (y <- ResBlock.forward b1 x ;; ResBlock.forward b2 y) h
              = (Ok z, h') ∧
            shape z = [B; C; H; W].
Proof.
  intros HB HC HH HW Ka Kn Ha Hg E1 E2 h x L1 L2 Hx.
  destruct (ResBlock_forward_ready C a nt rt1 h0 b1 h1 B H W) with (h := h)
    (x := x) as (y & h' & Ey & Hy & Lh); try done.
  erewrite bind_ok by exact Ey.
  destruct (ResBlock_forward_ready C a nt rt2 g0 b2 g1 B H W) with (h := h')
    (x := y) as (z & h'' & Ez & Hz & _); try done; [lia|].
  by exists z, h''.
Qed.

End Stacking.

(** ** The further properties at concrete blocks *)

Section MoreWitnesses.
Local Existing Instance IntTorch.torch.

Lemma ResBlock_layers_are_fresh_witness :
  ∃ b h1,
    ResBlock.__init__ 1 relu0 (Some "BN"%string) "basic" h0 = (Ok b, h1) ∧
    ∃ c1 n1 c2 n2,
      ResBlock.conv1 b = c1 :: n1 ++ [relu0] ∧ ResBlock.conv2 b = c2 :: n2 ∧
      length h1 = length h0 + 4 ∧
      NoDup (addr <$> (c1 :: n1 ++ c2 :: n2)).
Proof.
  eexists _, _. split; [reflexivity|].
  destruct (ResBlock_layers_are_fresh 1 relu0 (Some "BN"%string) "basic" h0
              _ _ eq_refl) as (c1 & n1 & c2 & n2 & H1 & H2 & L & _ & N).
  exists c1, n1, c2, n2. repeat split; assumption.
Defined.

Lemma ResFCBlock_layers_are_fresh_witness :
  ∃ b h1,
    ResFCBlock.__init__ 2 relu0 None h0 = (Ok b, h1) ∧
    ∃ l1 n1 l2 n2,
      ResFCBlock.fc1 b = l1 :: n1 ++ [relu0] ∧ ResFCBlock.fc2 b = l2 :: n2 ∧
      length h1 = length h0 + 2 ∧
      NoDup (addr <$> (l1 :: n1 ++ l2 :: n2)).
Proof.
  eexists _, _. split; [reflexivity|].
  destruct (ResFCBlock_layers_are_fresh 2 relu0 None h0 _ _ eq_refl)
    as (l1 & n1 & l2 & n2 & H1 & H2 & L & _ & N).
  exists l1, n1, l2, n2. repeat split; assumption.
Defined.

Lemma ResBlocks_share_only_the_activation_witness :
  ∃ b1 h1 b2 h2,
    ResBlock.__init__ 1 relu0 (Some "BN"%string) "basic" h0 = (Ok b1, h1) ∧
    ResBlock.__init__ 1 relu0 None "bottleneck" h1 = (Ok b2, h2) ∧
    ResBlock.act b1 = ResBlock.act b2 ∧
    (ResBlock.forward b2 img0 (ResBlock.forward b1 img0 h2).2).1 =
    (ResBlock.forward b2 img0 h2).1.
Proof.
  eexists _, _, _, _. split; [reflexivity|].
  match goal with
  | |- ResBlock.__init__ _ _ _ _ ?h1 = _ ∧ ResBlock.act ?b1 = _ ∧ _ =>
      edestruct (ResBlocks_share_only_the_activation
                   1 1 relu0 (Some "BN"%string) None "basic" "bottleneck"
                   h0 b1 h1 h1)
        as (Hact & _ & _ & _ & Hsame);
        [simpl; lia | reflexivity | reflexivity | reflexivity |]
  end.
  split; [reflexivity|]. split; [exact Hact|]. apply Hsame, relu_stateless.
Defined.

(** A basic block built with [activation=None] on an input its layers
    accept: the pass ends in the [TypeError]. *)
Example ResBlock_without_activation_fails :
  ∃ self h1,
    NoActivation.ResBlock_init 1 None "basic" h0 = (Ok self, h1) ∧
    (NoActivation.ResBlock_forward self img0 h1).1 =
      Err (TypeError "'NoneType' object is not callable").
Proof. eexists _, _. split; reflexivity. Qed.

(** So does a [ResFCBlock] built with [activation=None]. *)
Example ResFCBlock_without_activation_fails :
  ∃ self h1,
    NoActivation.ResFCBlock_init 2 (Some "LN"%string) h0 = (Ok self, h1) ∧
    (NoActivation.ResFCBlock_forward self vec0 h1).1 =
      Err (TypeError "'NoneType' object is not callable").
Proof. eexists _, _. split; reflexivity. Qed.

(** [ResFCBlock2] built with [activation=None] returns. *)
Example ResFCBlock2_without_activation_runs :
  ∃ self h1,
    NoActivation.ResFCBlock2_init 2 (Some "LN"%string) h0 = (Ok self, h1) ∧
    ∃ y, (NoActivation.ResFCBlock2_forward self vec0 h1).1 = Ok y.
Proof. eexists _, _. split; [reflexivity|]. eexists. by vm_compute. Qed.

Lemma forward_raises_only_inside_witness :
  (∃ b h1,
     ResBlock.__init__ 1 relu0 (Some "BN"%string) "basic" h0 = (Ok b, h1) ∧
     ∃ e, (ResBlock.forward b vec0 h1).1 = Err e ∧
          raised_inside (ResBlock.modules b) vec0 e) ∧
  (∃ conv1 conv2 h1,
     NoActivation.ResBlock_init 1 None "basic" h0 = (Ok (conv1, conv2), h1) ∧
     ∃ e, (NoActivation.ResBlock_forward (conv1, conv2) img0 h1).1 = Err e ∧
          (raised_inside (conv1 ++ conv2) img0 e ∨
           e = TypeError "'NoneType' object is not callable")).
Proof.
  split.
  - eexists _, _. split; [reflexivity|].
    match goal with
    | |- ∃ e, (ResBlock.forward ?b _ ?h).1 = Err e ∧ _ =>
        eexists; split; [reflexivity|];
        apply (proj1 forward_raises_only_inside b vec0 h); [|reflexivity]
    end.
    unfold wf. simpl. repeat constructor.
  - eexists _, _, _. split; [reflexivity|].
    apply (proj1 (proj2 (proj2 (proj2 forward_raises_only_inside)))).
    unfold wf. simpl. repeat constructor.
Defined.




Lemma ResBlocks_stack_witness :
  ∃ b1 h1 b2 h2,
    ResBlock.__init__ 1 relu0 (Some "BN"%string) "basic" h0 = (Ok b1, h1) ∧
    ResBlock.__init__ 1 relu0 (Some "BN"%string) "bottleneck" h1
      = (Ok b2, h2) ∧
    ∃ z h', (y <- ResBlock.forward b1 img0 ;; ResBlock.forward b2 y) h2
              = (Ok z, h') ∧
            shape z = [1; 1; 2; 2].
Proof.
  eexists _, _, _, _. split; [reflexivity|].
  match goal with
  | |- ResBlock.__init__ _ _ _ _ ?hh = _ ∧ _ =>
      split; [reflexivity|];
      eapply (ResBlocks_stack (TS := IntTorch_shapes)
                1 relu0 (Some "BN"%string) "basic" "bottleneck" h0)
        with (g0 := hh) (h1 := hh)
  end; try lia; try reflexivity; try (simpl; lia).
  - apply relu_keeps_shape.
  - intros ctor [= <-]. apply batch_norm_keeps_shape. simpl. lia.
Defined.

End MoreWitnesses.
